(** * Vulkava (rilysh/vulkava-fork): node selection, voice-update
      reconciliation and search, embedded from [src/index.ts]. *)

From Stdlib Require Import ZArith Lia Bool Ascii.
From stdpp Require Import gmap strings list.

Local Open Scope string_scope.
Local Open Scope list_scope.
Local Open Scope Z_scope.

(** ** Values thrown by the client *)

Inductive Error : Type :=
| NoConnectedNodes      (* Error('No connected nodes!') *)
| AssertionFailed       (* Error('Assertion failed. The Player does not have a node.') *)
| TypeError             (* a property read on undefined *)
| RemoteError.          (* a rejected node or catalog request *)

Inductive Completion (A : Type) : Type :=
| Return (a : A)
| Throw (e : Error).
Arguments Return {A} a.
Arguments Throw {A} e.

(** JavaScript truthiness of an optional string: absent, null and the
    empty string are falsy. *)
Definition truthy (o : option string) : bool :=
  match o with
  | Some s => negb (String.eqb s "")
  | None => false
  end.

(** ** Nodes *)

Module NodeState.
(** Modelled from the spec: the NodeState enum of lib/Node, which
    index.ts imports; the spec lists its five members. *)
Inductive t : Type := IDLE | CONNECTING | CONNECTED | RECONNECTING | DISCONNECTED.

Definition eqb (a b : t) : bool :=
  match a, b with
  | IDLE, IDLE | CONNECTING, CONNECTING | CONNECTED, CONNECTED
  | RECONNECTING, RECONNECTING | DISCONNECTED, DISCONNECTED => true
  | _, _ => false
  end.
End NodeState.

Module Node.
(** The members of a Node object that index.ts reads: [options.region],
    [state], and the getter [totalPenalties] (its value when read). *)
Record t : Type := mk {
  region : option string;
  state : NodeState.t;
  totalPenalties : Z
}.
End Node.

(** Node objects are shared by reference between [Vulkava.nodes] and the
    players. A reference is the rank of the object in creation order: the
    constructor creates one node per entry of [options.nodes], in order. *)
Definition addr : Type := nat.

(** What each node object currently holds. index.ts never writes to a node,
    so the store is an input of every operation. *)
Definition NodeStore : Type := addr -> Node.t.

Definition connected (σ : NodeStore) (a : addr) : bool :=
  NodeState.eqb (Node.state (σ a)) NodeState.CONNECTED.

(** ** Tracks and load results *)

(** A track value object (Track or UnresolvedTrack); index.ts reads only
    [duration]. An unresolved track has no encoded form. *)
Record Track : Type := mkTrack {
  encodedTrack : option string;
  title : string;
  duration : Z
}.

(** An item of a [loadtracks] response. *)
Record ITrack : Type := mkITrack {
  track : string;
  info_title : string;
  info_length : Z
}.

Inductive LoadType : Type :=
  TRACK_LOADED | PLAYLIST_LOADED | SEARCH_RESULT | NO_MATCHES | LOAD_FAILED.

(** [{} as PlaylistInfo] has none of the members. *)
Record PlaylistInfo : Type := mkPlaylistInfo {
  name : option string;
  pl_duration : option Z;
  selectedTrack : option Z
}.

Definition emptyPlaylistInfo : PlaylistInfo :=
  {| name := None; pl_duration := None; selectedTrack := None |}.

Record LoadTracksResult : Type := mkLoadTracksResult {
  raw_loadType : LoadType;
  raw_playlistInfo : PlaylistInfo;
  raw_tracks : list ITrack
}.

Record SearchResult : Type := mkSearchResult {
  loadType : LoadType;
  playlistInfo : PlaylistInfo;
  tracks : list Track
}.

(** [search] returns the node's response as it is for LOAD_FAILED and
    NO_MATCHES ([res as unknown as SearchResult]) and a wrapped one
    otherwise. *)
Inductive Found : Type :=
| Wrapped (r : SearchResult)
| Unwrapped (r : LoadTracksResult).

(** A titled collection returned by a catalog. *)
Record TrackList : Type := mkTrackList {
  list_title : string;
  list_tracks : list Track
}.

(** ** The catalog collaborators, at their interface

    The arguments are groups of a regular-expression match, which are
    undefined when the group took no part in it. *)

Module AppleMusic.
Record t : Type := mk {
  getMusicVideo : option string -> option string -> Completion Track;
  getTrack : option string -> option string -> Completion Track;
  getAlbum : option string -> option string -> Completion TrackList;
  getPlaylist : option string -> option string -> Completion TrackList;
  getArtistTopTracks : option string -> option string -> Completion TrackList
}.
End AppleMusic.

Module Deezer.
Record t : Type := mk {
  getTrack : option string -> Completion Track;
  getAlbum : option string -> Completion TrackList;
  getPlaylist : option string -> Completion TrackList
}.
End Deezer.

Module Spotify.
Record t : Type := mk {
  getTrack : option string -> Completion Track;
  getAlbum : option string -> Completion TrackList;
  getPlaylist : option string -> Completion TrackList;
  getArtistTopTracks : option string -> Completion TrackList
}.
End Spotify.

(** ** Gateway payloads *)

Module Payload.
(** The members of [payload.d] that either packet kind carries; [None]
    is an absent or null member. *)
Record data : Type := mkData {
  guild_id : option string;
  user_id : option string;
  session_id : option string;
  channel_id : option string;
  endpoint : option string;
  token : option string
}.

Record t : Type := mk {
  op : Z;
  t_ : string;
  d : data
}.
End Payload.

(** ** Players *)

Module ConnectionState.
(** Modelled from the spec: the ConnectionState enum of lib/Player.
    index.ts names DISCONNECTED only; CONNECTED is the state of a session
    whose handshake has been sent (READY in the spec), CONNECTING the
    state before that. *)
Inductive t : Type := CONNECTING | CONNECTED | DISCONNECTED.
End ConnectionState.

Module Player.
Record voiceState_t : Type := mkVoiceState {
  sessionId : option string;
  event : option Payload.data
}.

Record t : Type := mk {
  guildId : string;
  voiceChannelId : option string;
  voiceState : voiceState_t;
  node : option addr;
  state : ConnectionState.t
}.

Definition set_sessionId (s : option string) (p : t) : t :=
  mk (guildId p) (voiceChannelId p)
     (mkVoiceState s (event (voiceState p))) (node p) (state p).

Definition set_event (e : option Payload.data) (p : t) : t :=
  mk (guildId p) (voiceChannelId p)
     (mkVoiceState (sessionId (voiceState p)) e) (node p) (state p).

Definition set_voiceChannelId (c : option string) (p : t) : t :=
  mk (guildId p) c (voiceState p) (node p) (state p).

Definition set_node (n : option addr) (p : t) : t :=
  mk (guildId p) (voiceChannelId p) (voiceState p) n (state p).

Definition set_state (s : ConnectionState.t) (p : t) : t :=
  mk (guildId p) (voiceChannelId p) (voiceState p) (node p) s.
End Player.

(** The payload a node receives once both facts are known. *)
Record VoiceUpdate : Type := mkVoiceUpdate {
  vu_node : addr;
  vu_guildId : string;
  vu_sessionId : string;
  vu_endpoint : string;
  vu_token : option string
}.

(** ** The client *)

Record Vulkava : Type := mkVulkava {
  clientId : option string;
  nodes : list addr;
  cache : option (list (string * LoadTracksResult));
  defaultSearchSource : string;
  appleMusic : option AppleMusic.t;
  deezer : option Deezer.t;
  spotify : option Spotify.t;
  players : gmap string Player.t;
  lastNodeSorting : Z
}.

Definition set_nodes (l : list addr) (v : Vulkava) : Vulkava :=
  mkVulkava (clientId v) l (cache v) (defaultSearchSource v)
            (appleMusic v) (deezer v) (spotify v) (players v) (lastNodeSorting v).

Definition set_lastNodeSorting (z : Z) (v : Vulkava) : Vulkava :=
  mkVulkava (clientId v) (nodes v) (cache v) (defaultSearchSource v)
            (appleMusic v) (deezer v) (spotify v) (players v) z.

Definition set_cache (c : option (list (string * LoadTracksResult))) (v : Vulkava) : Vulkava :=
  mkVulkava (clientId v) (nodes v) c (defaultSearchSource v)
            (appleMusic v) (deezer v) (spotify v) (players v) (lastNodeSorting v).

Definition set_players (m : gmap string Player.t) (v : Vulkava) : Vulkava :=
  mkVulkava (clientId v) (nodes v) (cache v) (defaultSearchSource v)
            (appleMusic v) (deezer v) (spotify v) m (lastNodeSorting v).

Definition set_clientId (c : option string) (v : Vulkava) : Vulkava :=
  mkVulkava c (nodes v) (cache v) (defaultSearchSource v)
            (appleMusic v) (deezer v) (spotify v) (players v) (lastNodeSorting v).

(** *** The constructor *)

Record VulkavaOptions : Type := mkOptions {
  opt_nodes : list (option string);          (* one entry per node: its region *)
  opt_defaultSearchSource : option string;
  opt_disabledSources : option (list string);
  opt_appleMusic : AppleMusic.t;
  opt_deezer : Deezer.t;
  opt_spotify : Spotify.t
}.

Definition includes (s : string) (l : list string) : bool :=
  existsb (String.eqb s) l.

(** [checkOptions] rejects an empty node list; the constructor then pushes
    one node per entry, in order, and sets [lastNodeSorting] to 0. [cache]
    and [clientId] stay undefined until [start]. *)
Definition Vulkava_new (o : VulkavaOptions) : Completion Vulkava :=
  match opt_nodes o with
  | [] => Throw TypeError
  | _ =>
      let enabled {A} (tag : string) (x : A) : option A :=
        match opt_disabledSources o with
        | Some l => if includes tag l then None else Some x
        | None => Some x
        end in
      Return {|
        clientId := None;
        nodes := seq 0 (length (opt_nodes o));
        cache := None;
        defaultSearchSource := default "youtube" (opt_defaultSearchSource o);
        appleMusic := enabled "APPLE_MUSIC" (opt_appleMusic o);
        deezer := enabled "DEEZER" (opt_deezer o);
        spotify := enabled "SPOTIFY" (opt_spotify o);
        players := ∅;
        lastNodeSorting := 0
      |}
  end.

(** [start]: the nodes connect on their own; the search cache is created. *)
Definition start (id : string) (v : Vulkava) : Vulkava :=
  set_cache (Some []) (set_clientId (Some id) v).

(** ** Array.prototype.sort

    The sort is stable and in place; [compareFn x y <= 0] keeps [x] before
    [y]. *)

Section ArraySort.
Context {A : Type} (compareFn : A -> A -> Z).

Fixpoint sort_insert (x : A) (l : list A) : list A :=
  match l with
  | [] => [x]
  | y :: l' => if compareFn x y <=? 0 then x :: l else y :: sort_insert x l'
  end.

Definition Array_sort (l : list A) : list A := foldr sort_insert [] l.
End ArraySort.

Definition penalty (σ : NodeStore) (a : addr) : Z := Node.totalPenalties (σ a).

(** A compare function that subtracts keys, and an array in the order it
    gives. *)
Definition byKey {A : Type} (key : A -> Z) (x y : A) : Z := key x - key y.

Definition ordered {A : Type} (key : A -> Z) (l : list A) : Prop :=
  forall i x y, l !! i = Some x -> l !! S i = Some y -> key x <= key y.

(** [(a, b) => a.totalPenalties - b.totalPenalties] *)
Definition byPenalties (σ : NodeStore) : addr -> addr -> Z := byKey (penalty σ).

(** ** [get bestNode]

    [now] is the value of [Date.now()]. The getter calls itself after it
    resets [lastNodeSorting]; [fuel] bounds that recursion. The sort writes
    [this.nodes]; nothing writes [lastNodeSorting] but the reset. *)
Fixpoint bestNode (fuel : nat) (σ : NodeStore) (now : Z) (v : Vulkava)
  : option (Completion addr * Vulkava) :=
  match fuel with
  | O => None
  | S fuel' =>
      if now <? lastNodeSorting v + 30000 then
        match nodes v with
        | [] => Some (Throw TypeError, v)
        | a :: _ =>
            if connected σ a then Some (Return a, v)
            else bestNode fuel' σ now (set_lastNodeSorting 0 v)
        end
      else
        let sorted := Array_sort (byPenalties σ) (nodes v) in
        let v' := set_nodes sorted v in
        match sorted with
        | [] => Some (Throw NoConnectedNodes, v')
        | node :: _ =>
            if negb (connected σ node) then Some (Throw NoConnectedNodes, v')
            else Some (Return node, v')
        end
  end.

(** ** Voice sessions *)

(** Modelled from the spec: the session states of the reconciliation state
    machine, which index.ts does not store. AWAITING_FACTS has neither fact,
    PARTIAL exactly one, READY both (whether the handshake has gone out
    is in the state of the player); MIGRATING and CLOSED belong to
    lib/Player. *)
Inductive SessionPhase : Type :=
  AWAITING_FACTS | PARTIAL | READY | MIGRATING | CLOSED.

(** The facts a player holds: the session id when it is truthy, the
    server-assignment event when it is set. *)
Definition sessionFact (p : Player.t) : option string :=
  if truthy (Player.sessionId (Player.voiceState p))
  then Player.sessionId (Player.voiceState p) else None.

Definition phase (p : Player.t) : SessionPhase :=
  match sessionFact p, Player.event (Player.voiceState p) with
  | None, None => AWAITING_FACTS
  | Some _, Some _ => READY
  | _, _ => PARTIAL
  end.

(** The (session_id, endpoint, token) triple of a player; defined when both
    facts are present. *)
Definition facts (p : Player.t) : option (string * string * option string) :=
  match sessionFact p, Player.event (Player.voiceState p) with
  | Some sid, Some ev =>
      match Payload.endpoint ev with
      | Some ep => Some (sid, ep, Payload.token ev)
      | None => None
      end
  | _, _ => None
  end.

Definition handshake (a : addr) (guild : string) (f : string * string * option string)
  : VoiceUpdate :=
  {| vu_node := a; vu_guildId := guild; vu_sessionId := f.1.1;
     vu_endpoint := f.1.2; vu_token := f.2 |}.

(** What a call on a player leaves behind: how it completed, the player,
    and the payloads sent to nodes. *)
Definition PlayerStep : Type := (Completion unit * Player.t * list VoiceUpdate)%type.

(** Modelled from the spec: Player.sendVoiceUpdate of lib/Player, which
    index.ts calls and does not define. By the invariant of the session
    (section 3) the handshake is emitted if and only if both facts are
    present and the owning link is non-null and CONNECTED, and the session
    is then READY. By the failure semantics (4.3 and 7), if the owning link
    is null or not CONNECTED when a handshake would be emitted, the session
    raises AssertionFailed rather than retrying, which is fatal to the
    session: its state is written as the null-node check of index.ts
    writes it before its own throw (lines 525-528). The invariant is read
    at every call: a call that finds both facts and a CONNECTED link emits
    the handshake. *)
Definition sendVoiceUpdate (σ : NodeStore) (p : Player.t) : PlayerStep :=
  match facts p with
  | None => (Return tt, p, [])
  | Some f =>
      match Player.node p with
      | Some a =>
          if connected σ a
          then (Return tt, Player.set_state ConnectionState.CONNECTED p,
                [handshake a (Player.guildId p) f])
          else (Throw AssertionFailed,
                Player.set_state ConnectionState.DISCONNECTED p, [])
      | None => (Throw AssertionFailed,
                 Player.set_state ConnectionState.DISCONNECTED p, [])
      end
  end.

(** Modelled from the spec: Player.moveNode of lib/Player (migrateTo in the
    spec), which index.ts calls and does not define. It reassigns the
    owning link and re-sends the full handshake payload with the existing
    facts to the new link, after which the session is READY again (4.3).
    The migration is made on receipt of the assignment fact (4.4), which is
    where index.ts calls it, whatever the session holds by then; the
    re-send is [sendVoiceUpdate] on the new link, so the link is reassigned
    in every case and, by the invariant of the session, the handshake goes
    out if and only if both facts are present. *)
Definition moveNode (σ : NodeStore) (p : Player.t) (newNode : addr) : PlayerStep :=
  sendVoiceUpdate σ (Player.set_node (Some newNode) p).

(** ** [handleVoiceUpdate] *)

Record Outcome : Type := mkOutcome {
  completion : Completion unit;
  after : Vulkava;
  sent : list VoiceUpdate
}.

Definition unchanged (v : Vulkava) : Outcome :=
  {| completion := Return tt; after := v; sent := [] |}.

(** The player object is mutated in place; the map keeps holding it. *)
Definition putPlayer (g : string) (p : Player.t) (v : Vulkava) : Vulkava :=
  set_players (<[g := p]> (players v)) v.

Definition afterCall (g : string) (v : Vulkava) (s : PlayerStep) : Outcome :=
  let '(c, p, out) := s in
  {| completion := c; after := putPlayer g p v; sent := out |}.

Definition option_string_eqb (a b : option string) : bool :=
  match a, b with
  | Some x, Some y => String.eqb x y
  | None, None => true
  | _, _ => false
  end.

(** [this.nodes.filter(node => node.options.region === label &&
    node.state === NodeState.CONNECTED)] *)
Definition regionNodes (σ : NodeStore) (label : string) (v : Vulkava) : list addr :=
  List.filter
    (fun a => option_string_eqb (Node.region (σ a)) (Some label) && connected σ a)
    (nodes v).

Definition impliesUSA (endpoint : string) : bool :=
  existsb (fun loc => String.prefix loc endpoint) ["us"; "brazil"; "buenos-aires"].

(** The [VOICE_STATE_UPDATE] branch, for the player of guild [g]. *)
Definition onVoiceStateUpdate (σ : NodeStore) (d : Payload.data) (g : string)
    (player : Player.t) (v : Vulkava) : Outcome :=
  if negb (option_string_eqb (Payload.user_id d) (clientId v)) then unchanged v
  else
    let player := Player.set_sessionId (Payload.session_id d) player in
    let player :=
      if truthy (Payload.channel_id d)
      then Player.set_voiceChannelId (Payload.channel_id d) player
      else player in
    match Player.event (Player.voiceState player) with
    | Some _ => afterCall g v (sendVoiceUpdate σ player)
    | None => afterCall g v (Return tt, player, [])
    end.

(** The [VOICE_SERVER_UPDATE] branch, for the player of guild [g]. *)
Definition onVoiceServerUpdate (σ : NodeStore) (d : Payload.data) (g : string)
    (player : Player.t) (v : Vulkava) : Outcome :=
  match Payload.endpoint d with
  | None => unchanged v
  | Some ep =>
      if String.eqb ep "" then unchanged v
      else
        let player := Player.set_event (Some d) player in
        match Player.node player with
        | None =>
            afterCall g v
              (Throw AssertionFailed,
               Player.set_state ConnectionState.DISCONNECTED player, [])
        | Some n =>
            let region := Node.region (σ n) in
            let proceed :=
              if truthy (Player.sessionId (Player.voiceState player))
              then afterCall g v (sendVoiceUpdate σ player)
              else afterCall g v (Return tt, player, []) in
            if impliesUSA ep then
              if truthy region && negb (option_string_eqb region (Some "USA")) then
                match regionNodes σ "USA" v with
                | usaNode :: _ => afterCall g v (moveNode σ player usaNode)
                | [] => proceed
                end
              else proceed
            else if truthy region && negb (option_string_eqb region (Some "EU")) then
              match regionNodes σ "EU" v with
              | europeNode :: _ => afterCall g v (moveNode σ player europeNode)
              | [] => proceed
              end
            else proceed
        end
  end.

Definition handleVoiceUpdate (σ : NodeStore) (payload : Payload.t) (v : Vulkava) : Outcome :=
  let d := Payload.d payload in
  if negb (Payload.op payload =? 0) || negb (truthy (Payload.guild_id d)) then unchanged v
  else
    match Payload.guild_id d with
    | None => unchanged v
    | Some g =>
        match players v !! g with
        | None => unchanged v
        | Some player =>
            if String.eqb (Payload.t_ payload) "VOICE_STATE_UPDATE"
            then onVoiceStateUpdate σ d g player v
            else if String.eqb (Payload.t_ payload) "VOICE_SERVER_UPDATE"
            then onVoiceServerUpdate σ d g player v
            else unchanged v
        end
    end.

(** The two packets of the gateway: the session-id fact and the
    server-assignment fact. *)
Definition voiceStateUpdate (g : string) (user sid chan : option string) : Payload.t :=
  {| Payload.op := 0; Payload.t_ := "VOICE_STATE_UPDATE";
     Payload.d := {| Payload.guild_id := Some g; Payload.user_id := user;
                     Payload.session_id := sid; Payload.channel_id := chan;
                     Payload.endpoint := None; Payload.token := None |} |}.

Definition voiceServerUpdate (g : string) (ep tok : option string) : Payload.t :=
  {| Payload.op := 0; Payload.t_ := "VOICE_SERVER_UPDATE";
     Payload.d := {| Payload.guild_id := Some g; Payload.user_id := None;
                     Payload.session_id := None; Payload.channel_id := None;
                     Payload.endpoint := ep; Payload.token := tok |} |}.

(** The node a server-assignment fact with endpoint [ep] moves a player of
    node [n] to, if any: the first CONNECTED node of the region the endpoint
    implies, when [n] has a region label that differs from it. *)
Definition migrationTarget (σ : NodeStore) (v : Vulkava) (n : addr) (ep : string)
  : option addr :=
  let wanted := if impliesUSA ep then "USA" else "EU" in
  if truthy (Node.region (σ n)) && negb (option_string_eqb (Node.region (σ n)) (Some wanted))
  then head (regionNodes σ wanted v)
  else None.

(** The node that owns the session of a player of node [n] once a
    server-assignment fact with endpoint [ep] has been taken in: the
    migration target when there is one, [n] otherwise. *)
Definition ownerAfter (σ : NodeStore) (v : Vulkava) (n : addr) (ep : string) : addr :=
  default n (migrationTarget σ v n ep).

(** ** Regular expressions

    The three URL patterns use literals, character classes, sequence,
    alternation, the quantifiers [?], [+], [*] and [{2}], groups and [$].
    Matching is the backtracking one of JavaScript: alternatives left to
    right, quantifiers greedy, and an iteration of a quantifier that
    consumes nothing is rejected. *)

Inductive regex : Type :=
| Eps
| Sym (f : ascii -> bool)
| Seq (r1 r2 : regex)
| Alt (r1 r2 : regex)
| Opt (r : regex)
| Star (r : regex)
| Group (n : nat) (r : regex)
| Eol.

(** The groups of a match: index 0 is the whole match; [None] is a group
    that took no part. *)
Definition Captures : Type := list (option string).

Definition shorter (s' s : list ascii) : bool := (length s' <? length s)%nat.

Fixpoint rmatch (r : regex) (s : list ascii) (c : Captures)
    (k : list ascii -> Captures -> option Captures) {struct r} : option Captures :=
  match r with
  | Eps => k s c
  | Sym f =>
      match s with
      | x :: s' => if f x then k s' c else None
      | [] => None
      end
  | Seq r1 r2 => rmatch r1 s c (fun s' c' => rmatch r2 s' c' k)
  | Alt r1 r2 =>
      match rmatch r1 s c k with
      | Some m => Some m
      | None => rmatch r2 s c k
      end
  | Opt r' =>
      match rmatch r' s c (fun s' c' => if shorter s' s then k s' c' else None) with
      | Some m => Some m
      | None => k s c
      end
  | Star r' =>
      (fix loop (n : nat) (s : list ascii) (c : Captures) {struct n} : option Captures :=
         match n with
         | O => k s c
         | S n' =>
             match rmatch r' s c
                     (fun s' c' => if shorter s' s then loop n' s' c' else None) with
             | Some m => Some m
             | None => k s c
             end
         end) (length s) s c
  | Group n r' =>
      rmatch r' s c
        (fun s' c' =>
           k s' (<[n := Some (String.string_of_list_ascii (take (length s - length s') s))]> c'))
  | Eol =>
      match s with
      | [] => k s c
      | _ :: _ => None
      end
  end.

(** [s.match(r)] for a pattern that starts with [^] and has [groups]
    capturing groups. *)
Definition String_match (groups : nat) (r : regex) (s : string) : option Captures :=
  rmatch (Group 0 r) (String.list_ascii_of_string s) (replicate (S groups) None)
         (fun _ c => Some c).

Definition group (m : Captures) (i : nat) : option string := mjoin (m !! i).

(** *** Pattern syntax *)

Definition chr (a : ascii) : regex := Sym (Ascii.eqb a).

Fixpoint lit (s : string) : regex :=
  match s with
  | EmptyString => Eps
  | String a EmptyString => chr a
  | String a s' => Seq (chr a) (lit s')
  end.

Fixpoint seqs (l : list regex) : regex :=
  match l with
  | [] => Eps
  | [r] => r
  | r :: l' => Seq r (seqs l')
  end.

Fixpoint alts (l : list regex) : regex :=
  match l with
  | [] => Eps
  | [r] => r
  | r :: l' => Alt r (alts l')
  end.

Definition plus (r : regex) : regex := Seq r (Star r).

Definition between (lo hi : string) (a : ascii) : bool :=
  match lo, hi with
  | String l _, String h _ =>
      ((nat_of_ascii l <=? nat_of_ascii a) && (nat_of_ascii a <=? nat_of_ascii h))%nat
  | _, _ => false
  end.

Definition lower : ascii -> bool := between "a" "z".
Definition digit : ascii -> bool := between "0" "9".
Definition alnum (a : ascii) : bool := between "A" "Z" a || lower a || digit a.
Definition word (a : ascii) : bool := alnum a || Ascii.eqb a "_".
Definition noneOf (s : string) (a : ascii) : bool :=
  negb (existsb (Ascii.eqb a) (String.list_ascii_of_string s)).
(** [.] matches all but line terminators *)
Definition dot (a : ascii) : bool :=
  negb (Ascii.eqb a "010" || Ascii.eqb a "013").

(** [/^(?:https?:\/\/|)?(?:music\.)?apple\.com\/([a-z]{2})\/(album|playlist|artist|music-video)\/[^/]+\/([^/?]+)(?:\?i=(\d+))?/] *)
Definition APPLE_MUSIC_REGEX : regex :=
  seqs [ Opt (Alt (seqs [lit "http"; Opt (lit "s"); lit "://"]) Eps);
         Opt (lit "music.");
         lit "apple.com/";
         Group 1 (Seq (Sym lower) (Sym lower));
         lit "/";
         Group 2 (alts [lit "album"; lit "playlist"; lit "artist"; lit "music-video"]);
         lit "/";
         plus (Sym (noneOf "/"));
         lit "/";
         Group 3 (plus (Sym (noneOf "/?")));
         Opt (Seq (lit "?i=") (Group 4 (plus (Sym digit)))) ].

(** [/^(?:https:\/\/open\.spotify\.com\/(?:user\/[A-Za-z0-9]+\/)?|spotify:)(album|playlist|track)(?:[/:])([A-Za-z0-9]+).*$/] *)
Definition SPOTIFY_REGEX : regex :=
  seqs [ Alt (Seq (lit "https://open.spotify.com/")
                  (Opt (seqs [lit "user/"; plus (Sym alnum); lit "/"])))
             (lit "spotify:");
         Group 1 (alts [lit "album"; lit "playlist"; lit "track"]);
         Sym (fun a => Ascii.eqb a "/" || Ascii.eqb a ":");
         Group 2 (plus (Sym alnum));
         Star (Sym dot);
         Eol ].

(** [/^(?:https?:\/\/|)?(?:www\.)?deezer\.com\/(?:\w{2}\/)?(track|album|playlist)\/(\d+)/] *)
Definition DEEZER_REGEX : regex :=
  seqs [ Opt (Alt (seqs [lit "http"; Opt (lit "s"); lit "://"]) Eps);
         Opt (lit "www.");
         lit "deezer.com/";
         Opt (seqs [Sym word; Sym word; lit "/"]);
         Group 1 (alts [lit "track"; lit "album"; lit "playlist"]);
         lit "/";
         Group 2 (plus (Sym digit)) ].

(** ** Catalog lookups *)

(** [await]: a rejected promise throws. *)
#[global] Instance Completion_bind : MBind Completion :=
  fun A B (f : A -> Completion B) (c : Completion A) =>
    match c with
    | Return a => f a
    | Throw e => Throw e
    end.

Definition sumZ (l : list Z) : Z := foldr Z.add 0 l.

(** [list.tracks.reduce((acc, curr) => acc + curr.duration, 0)] *)
Definition totalDuration (l : list Track) : Z :=
  fold_left (fun acc curr => acc + duration curr) l 0.

(** A result whose playlist duration, if it is a playlist, is the sum of
    its tracks. *)
Definition summed (r : SearchResult) : Prop :=
  loadType r = PLAYLIST_LOADED ->
  pl_duration (playlistInfo r) = Some (sumZ (map duration (tracks r))).

Definition trackLoaded (t : Track) : option SearchResult :=
  Some {| loadType := TRACK_LOADED; playlistInfo := emptyPlaylistInfo; tracks := [t] |}.

Definition playlistLoaded (l : TrackList) : option SearchResult :=
  Some {| loadType := PLAYLIST_LOADED;
          playlistInfo := {| name := Some (list_title l);
                             pl_duration := Some (totalDuration (list_tracks l));
                             selectedTrack := Some 0 |};
          tracks := list_tracks l |}.

Definition groupIs (s : string) (o : option string) : bool := option_string_eqb o (Some s).

Definition loadFromAppleMusic (v : Vulkava) (query : string)
  : Completion (option SearchResult) :=
  match appleMusic v with
  | None => Return None
  | Some am =>
      match String_match 4 APPLE_MUSIC_REGEX query with
      | None => Return None
      | Some appleMusicMatch =>
          let storefront := group appleMusicMatch 1 in
          let kind := group appleMusicMatch 2 in
          if groupIs "music-video" kind then
            t ← AppleMusic.getMusicVideo am (group appleMusicMatch 3) storefront ;
            Return (trackLoaded t)
          else if groupIs "album" kind then
            if truthy (group appleMusicMatch 4) then
              t ← AppleMusic.getTrack am (group appleMusicMatch 4) storefront ;
              Return (trackLoaded t)
            else
              l ← AppleMusic.getAlbum am (group appleMusicMatch 3) storefront ;
              Return (playlistLoaded l)
          else if groupIs "playlist" kind then
            l ← AppleMusic.getPlaylist am (group appleMusicMatch 3) storefront ;
            Return (playlistLoaded l)
          else if groupIs "artist" kind then
            l ← AppleMusic.getArtistTopTracks am (group appleMusicMatch 3) storefront ;
            Return (playlistLoaded l)
          else Return None
      end
  end.

Definition loadFromDeezer (v : Vulkava) (query : string)
  : Completion (option SearchResult) :=
  match deezer v with
  | None => Return None
  | Some dz =>
      match String_match 2 DEEZER_REGEX query with
      | None => Return None
      | Some deezerMatch =>
          let kind := group deezerMatch 1 in
          if groupIs "track" kind then
            t ← Deezer.getTrack dz (group deezerMatch 2) ;
            Return (trackLoaded t)
          else if groupIs "album" kind then
            l ← Deezer.getAlbum dz (group deezerMatch 2) ;
            Return (playlistLoaded l)
          else if groupIs "playlist" kind then
            l ← Deezer.getPlaylist dz (group deezerMatch 2) ;
            Return (playlistLoaded l)
          else Return None
      end
  end.

Definition loadFromSpotify (v : Vulkava) (query : string)
  : Completion (option SearchResult) :=
  match spotify v with
  | None => Return None
  | Some sp =>
      match String_match 2 SPOTIFY_REGEX query with
      | None => Return None
      | Some spotifyMatch =>
          let kind := group spotifyMatch 1 in
          if groupIs "track" kind then
            t ← Spotify.getTrack sp (group spotifyMatch 2) ;
            Return (trackLoaded t)
          else if groupIs "album" kind then
            l ← Spotify.getAlbum sp (group spotifyMatch 2) ;
            Return (playlistLoaded l)
          else if groupIs "playlist" kind then
            l ← Spotify.getPlaylist sp (group spotifyMatch 2) ;
            Return (playlistLoaded l)
          else if groupIs "artist" kind then
            l ← Spotify.getArtistTopTracks sp (group spotifyMatch 2) ;
            Return (playlistLoaded l)
          else Return None
      end
  end.

(** [await a ?? await b]: [b] runs only when [a] resolves to null. *)
Definition orElse {A : Type} (a b : Completion (option A)) : Completion (option A) :=
  x ← a; match x with Some r => Return (Some r) | None => b end.

(** ** [search] *)

Definition sourceMap (source : string) : option string :=
  if String.eqb source "youtube" then Some "ytsearch:"
  else if String.eqb source "youtubemusic" then Some "ytmsearch:"
  else if String.eqb source "soundcloud" then Some "scsearch:"
  else if String.eqb source "odysee" then Some "odsearch:"
  else if String.eqb source "yandex" then Some "ymsearch:"
  else None.

(** The query sent to the node: a URL as it is, anything else behind the
    prefix of the source. *)
Definition identifier (source query : string) : string :=
  if negb (String.prefix "https://" query) && negb (String.prefix "http://" query)
  then default "ytsearch:" (sourceMap source) +:+ query
  else query.

(** The value [res] holds after [this.cache.each.map(...)]: the last entry
    whose key equals the query. *)
Definition cacheLookup (query : string) (c : list (string * LoadTracksResult))
  : option LoadTracksResult :=
  fold_left (fun res x => if String.eqb x.1 query then Some x.2 else res) c None.

Definition set_duration (z : Z) (i : PlaylistInfo) : PlaylistInfo :=
  {| name := name i; pl_duration := Some z; selectedTrack := selectedTrack i |}.

Definition set_raw_duration (z : Z) (r : LoadTracksResult) : LoadTracksResult :=
  {| raw_loadType := raw_loadType r;
     raw_playlistInfo := set_duration z (raw_playlistInfo r);
     raw_tracks := raw_tracks r |}.

(** [res] is the object the cache holds under the query (the last such
    entry), so a write to [res.playlistInfo] is a write to that entry. *)
Fixpoint writeFirst (query : string) (f : LoadTracksResult -> LoadTracksResult)
    (c : list (string * LoadTracksResult)) : list (string * LoadTracksResult) :=
  match c with
  | [] => []
  | x :: c' => if String.eqb x.1 query then (x.1, f x.2) :: c' else x :: writeFirst query f c'
  end.

Definition writeLast (query : string) (f : LoadTracksResult -> LoadTracksResult)
    (c : list (string * LoadTracksResult)) : list (string * LoadTracksResult) :=
  rev (writeFirst query f (rev c)).

(** What [search] leaves behind: the client and the [loadtracks] requests
    issued, each with its node and identifier. *)
Record SearchStep : Type := mkSearchStep {
  found : Completion Found;
  client : Vulkava;
  requests : list (addr * string)
}.

Section Search.
(** [new Track(t)] of lib/Track, and what a node answers to
    [GET loadtracks?identifier=<query>]. *)
Variable Track_new : ITrack -> Track.
Variable request : addr -> string -> Completion LoadTracksResult.

(** The statements after the cache lookup. *)
Definition finish (query : string) (res : LoadTracksResult) (v : Vulkava)
    (reqs : list (addr * string)) : SearchStep :=
  match raw_loadType res with
  | LOAD_FAILED | NO_MATCHES =>
      {| found := Return (Unwrapped res); client := v; requests := reqs |}
  | PLAYLIST_LOADED =>
      let tracks := map Track_new (raw_tracks res) in
      let total := totalDuration tracks in
      {| found := Return (Wrapped {| loadType := PLAYLIST_LOADED;
                                     playlistInfo := set_duration total (raw_playlistInfo res);
                                     tracks := tracks |});
         client := set_cache (writeLast query (set_raw_duration total) <$> cache v) v;
         requests := reqs |}
  | lt =>
      {| found := Return (Wrapped {| loadType := lt;
                                     playlistInfo := raw_playlistInfo res;
                                     tracks := map Track_new (raw_tracks res) |});
         client := v; requests := reqs |}
  end.

(** The request to the node and [this.cache.add]. *)
Definition load (node : addr) (query : string) (c : list (string * LoadTracksResult))
    (v : Vulkava) : SearchStep :=
  match request node query with
  | Throw e => {| found := Throw e; client := v; requests := [(node, query)] |}
  | Return res =>
      finish query res (set_cache (Some (c ++ [(query, res)])) v) [(node, query)]
  end.

Definition search (fuel : nat) (σ : NodeStore) (now : Z)
    (query : string) (source : option string) (v : Vulkava) : option SearchStep :=
  match bestNode fuel σ now v with
  | None => None
  | Some (Throw e, v) => Some {| found := Throw e; client := v; requests := [] |}
  | Some (Return node, v) =>
      let source := default (defaultSearchSource v) source in
      match orElse (loadFromAppleMusic v query)
              (orElse (loadFromDeezer v query) (loadFromSpotify v query)) with
      | Throw e => Some {| found := Throw e; client := v; requests := [] |}
      | Return (Some extSourceResult) =>
          Some {| found := Return (Wrapped extSourceResult); client := v; requests := [] |}
      | Return None =>
          let query := identifier source query in
          match cache v with
          | None => Some {| found := Throw TypeError; client := v; requests := [] |}
          | Some [] => Some (load node query [] v)
          | Some c =>
              match cacheLookup query c with
              | Some res => Some (finish query res v [])
              | None => Some (load node query c v)
              end
          end
      end
  end.
End Search.

(** ** [createPlayer] *)

Module PlayerOptions.
Record t : Type := mk {
  guildId : string;
  voiceChannelId : option string;
  textChannelId : option string;
  selfDeaf : option bool;
  selfMute : option bool
}.
End PlayerOptions.

Section Players.
(** [new Player(this, options)] of lib/Player: it is handed the client,
    which it may write to, and it may throw. *)
Variable Player_new : PlayerOptions.t -> Vulkava -> Completion Player.t * Vulkava.

Definition createPlayer (options : PlayerOptions.t) (v : Vulkava)
  : Completion Player.t * Vulkava :=
  match players v !! PlayerOptions.guildId options with
  | Some player => (Return player, v)
  | None =>
      match Player_new options v with
      | (Return player, v') =>
          (Return player, putPlayer (PlayerOptions.guildId options) player v')
      | (Throw e, v') => (Throw e, v')
      end
  end.
End Players.

(** ** [decodeTrack] and [decodeTracks] *)

(** The answer of a node to [GET decodetrack]. *)
Record TrackInfo : Type := mkTrackInfo {
  ti_title : string;
  ti_length : Z
}.

(** What a decode leaves behind: the client and the nodes that were sent a
    request. *)
Record DecodeStep (A : Type) : Type := mkDecodeStep {
  decoded : Completion A;
  decodeClient : Vulkava;
  asked : list addr
}.
Arguments mkDecodeStep {A} _ _ _.
Arguments decoded {A} _.
Arguments decodeClient {A} _.
Arguments asked {A} _.

Section Decode.
(** [new Track(t)] of lib/Track, and what a node answers to
    [GET decodetrack?track=<encoded>] and to [POST decodetracks]. *)
Variable Track_new : ITrack -> Track.
Variable requestTrackInfo : addr -> string -> Completion TrackInfo.
Variable requestTracks : addr -> list string -> Completion (list ITrack).

Definition decodeTrack (fuel : nat) (σ : NodeStore) (now : Z) (encodedTrack : string)
    (v : Vulkava) : option (DecodeStep Track) :=
  match bestNode fuel σ now v with
  | None => None
  | Some (Throw e, v) => Some (mkDecodeStep (Throw e) v [])
  | Some (Return node, v) =>
      Some (mkDecodeStep
              (trackInfo ← requestTrackInfo node encodedTrack;
               Return (Track_new {| track := encodedTrack;
                                    info_title := ti_title trackInfo;
                                    info_length := ti_length trackInfo |}))
              v [node])
  end.

Definition decodeTracks (fuel : nat) (σ : NodeStore) (now : Z) (encodedTracks : list string)
    (v : Vulkava) : option (DecodeStep (list Track)) :=
  match bestNode fuel σ now v with
  | None => None
  | Some (Throw e, v) => Some (mkDecodeStep (Throw e) v [])
  | Some (Return node, v) =>
      Some (mkDecodeStep
              (res ← requestTracks node encodedTracks; Return (map Track_new res))
              v [node])
  end.
End Decode.

(** ** What a pattern accepts

    [sem r w rest c c']: the pattern [r] accepts the word [w] in front of
    the input [rest] and turns the groups [c] into [c']. *)

Inductive sem : regex -> list ascii -> list ascii -> Captures -> Captures -> Prop :=
| sem_Eps rest c : sem Eps [] rest c c
| sem_Sym f a rest c : f a = true -> sem (Sym f) [a] rest c c
| sem_Seq r1 r2 w1 w2 rest c c' c'' :
    sem r1 w1 (w2 ++ rest) c c' -> sem r2 w2 rest c' c'' ->
    sem (Seq r1 r2) (w1 ++ w2) rest c c''
| sem_AltL r1 r2 w rest c c' : sem r1 w rest c c' -> sem (Alt r1 r2) w rest c c'
| sem_AltR r1 r2 w rest c c' : sem r2 w rest c c' -> sem (Alt r1 r2) w rest c c'
| sem_OptNone r rest c : sem (Opt r) [] rest c c
| sem_OptSome r w rest c c' : sem r w rest c c' -> sem (Opt r) w rest c c'
| sem_StarNil r rest c : sem (Star r) [] rest c c
| sem_StarCons r w1 w2 rest c c' c'' :
    sem r w1 (w2 ++ rest) c c' -> sem (Star r) w2 rest c' c'' ->
    sem (Star r) (w1 ++ w2) rest c c''
| sem_Group n r w rest c c' :
    sem r w rest c c' ->
    sem (Group n r) w rest c (<[n := Some (String.string_of_list_ascii w)]> c')
| sem_Eol c : sem Eol [] [] c c.

Fixpoint groupless (r : regex) : bool :=
  match r with
  | Eps | Sym _ | Eol => true
  | Seq r1 r2 | Alt r1 r2 => groupless r1 && groupless r2
  | Opt r' | Star r' => groupless r'
  | Group _ _ => false
  end.

(** The three schemes a catalog URL may start with, and the letters of a
    string. *)
Definition schemes : list string := [""; "http://"; "https://"].

Definition letters (s : string) : list ascii := String.list_ascii_of_string s.

(** How a match of each pattern may start. *)
Definition applePrefixes : list string :=
  s ← schemes; m ← [""; "music."]; [s +:+ m +:+ "apple.com/"].

Definition deezerPrefixes : list string :=
  s ← schemes; w ← [""; "www."]; [s +:+ w +:+ "deezer.com/"].

Definition spotifyPrefixes : list string :=
  ["https://open.spotify.com/"; "spotify:"].

Definition startsWithOneOf (prefixes : list string) (q : string) : Prop :=
  exists p tail, p ∈ prefixes /\ letters q = letters p ++ tail.

(** ** Reading the client *)

(** Two clients that differ at most in the order of the node array, the
    search cache and [lastNodeSorting]. *)
Definition sameSetup (v w : Vulkava) : Prop :=
  clientId w = clientId v
  /\ defaultSearchSource w = defaultSearchSource v
  /\ appleMusic w = appleMusic v
  /\ deezer w = deezer v
  /\ spotify w = spotify v
  /\ players w = players v.

Definition cacheKeys (v : Vulkava) : list string :=
  match cache v with
  | Some c => map fst c
  | None => []
  end.

Definition set_spotify (sp : option Spotify.t) (v : Vulkava) : Vulkava :=
  mkVulkava (clientId v) (nodes v) (cache v) (defaultSearchSource v)
            (appleMusic v) (deezer v) sp (players v) (lastNodeSorting v).

Definition withArtistTopTracks (f : option string -> Completion TrackList) (sp : Spotify.t)
  : Spotify.t :=
  {| Spotify.getTrack := Spotify.getTrack sp;
     Spotify.getAlbum := Spotify.getAlbum sp;
     Spotify.getPlaylist := Spotify.getPlaylist sp;
     Spotify.getArtistTopTracks := f |}.

(** ** Sample data *)

(** A store given by the list of its node objects, in creation order. *)
Definition storeOf (l : list Node.t) : NodeStore :=
  fun a => nth a l (Node.mk None NodeState.IDLE 0).

Definition song (n : string) (ms : Z) : Track :=
  {| encodedTrack := None; title := n; duration := ms |}.

Definition sampleAlbum : TrackList :=
  {| list_title := "Album"; list_tracks := [song "one" 100; song "two" 200] |}.

Definition sampleAppleMusic : AppleMusic.t :=
  {| AppleMusic.getMusicVideo := fun _ _ => Return (song "video" 50);
     AppleMusic.getTrack := fun _ _ => Return (song "one" 100);
     AppleMusic.getAlbum := fun _ _ => Return sampleAlbum;
     AppleMusic.getPlaylist := fun _ _ => Return sampleAlbum;
     AppleMusic.getArtistTopTracks := fun _ _ => Return sampleAlbum |}.

Definition sampleDeezer : Deezer.t :=
  {| Deezer.getTrack := fun _ => Return (song "one" 100);
     Deezer.getAlbum := fun _ => Return sampleAlbum;
     Deezer.getPlaylist := fun _ => Return sampleAlbum |}.

Definition sampleSpotify : Spotify.t :=
  {| Spotify.getTrack := fun _ => Return (song "one" 100);
     Spotify.getAlbum := fun _ => Return sampleAlbum;
     Spotify.getPlaylist := fun _ => Return sampleAlbum;
     Spotify.getArtistTopTracks := fun _ => Return sampleAlbum |}.

(** Two nodes, every source enabled. *)
Definition twoNodes : VulkavaOptions :=
  {| opt_nodes := [None; None];
     opt_defaultSearchSource := None;
     opt_disabledSources := None;
     opt_appleMusic := sampleAppleMusic;
     opt_deezer := sampleDeezer;
     opt_spotify := sampleSpotify |}.

(** The client [new Vulkava(twoNodes)] builds. *)
Definition client0 : Vulkava :=
  {| clientId := None;
     nodes := [0%nat; 1%nat];
     cache := None;
     defaultSearchSource := "youtube";
     appleMusic := Some sampleAppleMusic;
     deezer := Some sampleDeezer;
     spotify := Some sampleSpotify;
     players := ∅;
     lastNodeSorting := 0 |}.

(** A clock value of November 2023, in milliseconds. *)
Definition t0 : Z := 1700000000000.

Definition up (penalties : Z) : Node.t := Node.mk None NodeState.CONNECTED penalties.
Definition down (penalties : Z) : Node.t := Node.mk None NodeState.DISCONNECTED penalties.

(** A session of guild G1 with neither fact, owned by node 0, on a started
    client. *)
Definition lobby : Player.t :=
  {| Player.guildId := "G1"; Player.voiceChannelId := Some "C1";
     Player.voiceState := {| Player.sessionId := None; Player.event := None |};
     Player.node := Some 0%nat; Player.state := ConnectionState.CONNECTING |}.

Definition client1 : Vulkava :=
  set_players {[ "G1" := lobby ]} (start "bot" client0).

Definition sessionIdFact : Payload.t :=
  voiceStateUpdate "G1" (Some "bot") (Some "S1") None.

Definition serverFact : Payload.t :=
  voiceServerUpdate "G1" (Some "us-east42.discord.media") (Some "T1").

(** Node 0 in Europe and node 1 in the USA, both CONNECTED. *)
Definition twoRegions : NodeStore :=
  storeOf [Node.mk (Some "EU") NodeState.CONNECTED 1;
           Node.mk (Some "USA") NodeState.CONNECTED 3].

(** A node that answers every query with a two-track playlist whose
    reported duration is 999. *)
Definition sampleTrack_new (t : ITrack) : Track :=
  {| encodedTrack := Some (track t); title := info_title t; duration := info_length t |}.

Definition samplePlaylist : LoadTracksResult :=
  {| raw_loadType := PLAYLIST_LOADED;
     raw_playlistInfo := {| name := Some "mix"; pl_duration := Some 999;
                            selectedTrack := Some 0 |};
     raw_tracks := [mkITrack "QAAA" "one" 100; mkITrack "QAAB" "two" 200] |}.

Definition sampleRequest (_ : addr) (_ : string) : Completion LoadTracksResult :=
  Return samplePlaylist.

Definition albumUrl : string := "https://music.apple.com/us/album/some-name/12345".

(** An outcome touches the session of guild [g] and nothing else of the
    client. *)
Definition onlySession (g : string) (v : Vulkava) (o : Outcome) : Prop :=
  nodes (after o) = nodes v
  /\ lastNodeSorting (after o) = lastNodeSorting v
  /\ cache (after o) = cache v
  /\ clientId (after o) = clientId v
  /\ forall g', g' <> g -> players (after o) !! g' = players v !! g'.

(** * Properties *)

(** ** Sorting *)

Section SortFacts.
Context {A : Type} (key : A -> Z).

(** The first element of the sorted array is the earliest element of the
    array that has the least key. *)
Lemma Array_sort_head (l : list A) (a : A) (rest : list A) :
  Array_sort (byKey key) l = a :: rest ->
  exists l1 l2, l = l1 ++ a :: l2
    /\ Forall (fun b => key a < key b) l1
    /\ Forall (fun b => key a <= key b) l2.
Proof.
  revert a rest. induction l as [|x l IH]; intros a rest; simpl; [discriminate|].
  destruct (Array_sort (byKey key) l) as [|y ys] eqn:E; simpl.
  - intros [= <- <-]. destruct l as [|z l].
    + exists [], []. auto.
    + simpl in E. destruct (Array_sort (byKey key) l); simpl in E; [discriminate|].
      destruct (_ <=? _) in E; discriminate.
  - destruct (IH y ys eq_refl) as (l1 & l2 & -> & H1 & H2).
    unfold byKey at 1. destruct (Z.leb_spec (key x - key y) 0) as [Hle|Hgt].
    + intros [= <- <-]. exists [], (l1 ++ y :: l2). split; [done|]. split; [constructor|].
      apply Forall_app. split.
      * eapply Forall_impl; [exact H1|]. simpl. intros; lia.
      * constructor; [lia|]. eapply Forall_impl; [exact H2|]. simpl. intros; lia.
    + intros [= <- <-]. exists (x :: l1), l2. split; [done|]. split; [|done].
      constructor; [lia | done].
Qed.

Lemma ordered_tail (x : A) (l : list A) : ordered key (x :: l) -> ordered key l.
Proof. intros Hl i a b Ha Hb. exact (Hl (S i) a b Ha Hb). Qed.

Lemma ordered_cons (x y : A) (l : list A) :
  key x <= key y -> ordered key (y :: l) -> ordered key (x :: y :: l).
Proof.
  intros Hxy Hl [|i] a b Ha Hb; simpl in *.
  - by simplify_eq.
  - exact (Hl i a b Ha Hb).
Qed.

Lemma sort_insert_ordered (x : A) (l : list A) :
  ordered key l -> ordered key (sort_insert (byKey key) x l).
Proof.
  induction l as [|y l IH]; intros Hl; simpl.
  - intros [|i] a b Ha Hb; simpl in *; simplify_eq.
  - unfold byKey at 1. destruct (Z.leb_spec (key x - key y) 0) as [Hle|Hgt].
    + apply ordered_cons; [lia | done].
    + specialize (IH (ordered_tail _ _ Hl)).
      destruct l as [|z l]; simpl in *.
      * apply ordered_cons; [lia|]. intros [|i] a b Ha Hb; simpl in *; simplify_eq.
      * pose proof (Hl 0%nat y z eq_refl eq_refl) as Hyz.
        unfold byKey in *. destruct (Z.leb_spec (key x - key z) 0).
        -- apply ordered_cons; [lia | done].
        -- apply ordered_cons; [lia | done].
Qed.

Lemma Array_sort_ordered (l : list A) : ordered key (Array_sort (byKey key) l).
Proof.
  induction l as [|x l IH]; simpl.
  - intros i ? ? H. destruct i; discriminate.
  - by apply sort_insert_ordered.
Qed.

(** Sorting a sorted array leaves it as it is. *)
Lemma Array_sort_fixed (l : list A) : ordered key l -> Array_sort (byKey key) l = l.
Proof.
  induction l as [|x l IH]; intros Hl; simpl; [done|].
  rewrite IH by exact (ordered_tail _ _ Hl).
  destruct l as [|y l]; simpl; [done|].
  unfold byKey. pose proof (Hl 0%nat x y eq_refl eq_refl).
  destruct (Z.leb_spec (key x - key y) 0); [done | lia].
Qed.

Lemma Array_sort_idempotent (l : list A) :
  Array_sort (byKey key) (Array_sort (byKey key) l) = Array_sort (byKey key) l.
Proof. apply Array_sort_fixed, Array_sort_ordered. Qed.
End SortFacts.

(** ** [bestNode] *)

Lemma connected_true (σ : NodeStore) (a : addr) :
  connected σ a = true <-> Node.state (σ a) = NodeState.CONNECTED.
Proof. unfold connected. destruct (Node.state (σ a)); simpl; split; congruence. Qed.

(** A rescan returns the head of the sorted array. *)
Lemma bestNode_rescan (fuel : nat) (σ : NodeStore) (now : Z) (v : Vulkava) :
  lastNodeSorting v + 30000 <= now ->
  bestNode (S fuel) σ now v =
    let v' := set_nodes (Array_sort (byPenalties σ) (nodes v)) v in
    match nodes v' with
    | [] => Some (Throw NoConnectedNodes, v')
    | node :: _ =>
        if connected σ node then Some (Return node, v') else Some (Throw NoConnectedNodes, v')
    end.
Proof.
  intros H. simpl. destruct (Z.ltb_spec now (lastNodeSorting v + 30000)); [lia|].
  destruct (Array_sort _ _); [done|]. by destruct (connected σ _).
Qed.

(** Inside the window the head of the array is returned while it is
    CONNECTED. *)
Lemma bestNode_cached (fuel : nat) (σ : NodeStore) (now : Z) (v : Vulkava)
    (a : addr) (l : list addr) :
  now < lastNodeSorting v + 30000 -> nodes v = a :: l -> connected σ a = true ->
  bestNode (S fuel) σ now v = Some (Return a, v).
Proof.
  intros H Hn Hc. simpl. destruct (Z.ltb_spec now (lastNodeSorting v + 30000)); [|lia].
  by rewrite Hn, Hc.
Qed.

(** Whatever [bestNode] returns is CONNECTED. *)
Lemma bestNode_connected (fuel : nat) (σ : NodeStore) (now : Z) (v v' : Vulkava) (a : addr) :
  bestNode fuel σ now v = Some (Return a, v') -> connected σ a = true.
Proof.
  revert v. induction fuel as [|fuel IH]; intros v; simpl; [discriminate|].
  destruct (now <? _).
  - destruct (nodes v) as [|b l]; [discriminate|].
    destruct (connected σ b) eqn:E; [by intros [= <- <-] | apply IH].
  - destruct (Array_sort _ _) as [|b l]; [discriminate|].
    destruct (connected σ b) eqn:E; simpl; [by intros [= <- <-] | discriminate].
Qed.

(** The getter never stores the clock: [lastNodeSorting] keeps its value
    or is reset to 0. *)
Lemma bestNode_never_stamps (fuel : nat) (σ : NodeStore) (now : Z) (v v' : Vulkava)
    (c : Completion addr) :
  bestNode fuel σ now v = Some (c, v') ->
  lastNodeSorting v' = lastNodeSorting v \/ lastNodeSorting v' = 0.
Proof.
  revert v. induction fuel as [|fuel IH]; intros v; simpl; [discriminate|].
  destruct (now <? _).
  - destruct (nodes v) as [|b l]; [intros [= <- <-]; by left|].
    destruct (connected σ b); [intros [= <- <-]; by left|].
    intros H. apply IH in H. simpl in H. destruct H; auto.
  - destruct (Array_sort _ _) as [|b l]; [intros [= <- <-]; by left|].
    destruct (connected σ b); simpl; intros [= <- <-]; by left.
Qed.

(** On a client whose [lastNodeSorting] is 0, as the constructor leaves it,
    and a clock past 30000, the getter returns with a fuel of 1. *)
Lemma bestNode_total (σ : NodeStore) (now : Z) (v : Vulkava) :
  lastNodeSorting v = 0 -> 30000 <= now ->
  exists c v', bestNode 1 σ now v = Some (c, v') /\ lastNodeSorting v' = 0.
Proof.
  intros H0 Hnow. rewrite bestNode_rescan by lia. simpl.
  destruct (Array_sort _ _) as [|b l]; [eauto|].
  destruct (connected σ b); eauto.
Qed.

(** On a clock before 30000 the getter calls itself for ever when the head
    of the array is not CONNECTED. *)
Lemma bestNode_diverges (fuel : nat) (σ : NodeStore) (now : Z) (v : Vulkava)
    (a : addr) (l : list addr) :
  lastNodeSorting v = 0 -> now < 30000 -> nodes v = a :: l -> connected σ a = false ->
  bestNode fuel σ now v = None.
Proof.
  revert v. induction fuel as [|fuel IH]; intros v H0 Hnow Hn Hc; [done|].
  simpl. rewrite H0. destruct (Z.ltb_spec now (0 + 30000)); [|lia].
  rewrite Hn, Hc. by apply IH.
Qed.

(** C1, at a failing input. Node 0 has the lower penalty and is
    DISCONNECTED, node 1 is CONNECTED: the getter throws 'No connected
    nodes!' although a member of the pool is CONNECTED. *)
Theorem bestNode_throws_beside_connected_node :
  Vulkava_new twoNodes = Return client0
  /\ bestNode 1 (storeOf [down 1; up 3]) t0 client0 = Some (Throw NoConnectedNodes, client0)
  /\ (1%nat ∈ nodes client0 /\ connected (storeOf [down 1; up 3]) 1%nat = true).
Proof.
  split; [reflexivity|]. split; [reflexivity|]. split; [|reflexivity].
  unfold client0; simpl. set_solver.
Qed.

(** C2, at a failing input. A rescan at [t0] leaves [lastNodeSorting] at 0
    instead of [t0]; one second later, with both nodes still CONNECTED and
    node 0 more loaded, the getter rescans and returns the other node. *)
Theorem bestNode_rescan_keeps_no_timestamp :
  bestNode 1 (storeOf [up 1; up 3]) t0 client0 = Some (Return 0%nat, client0)
  /\ lastNodeSorting client0 = 0
  /\ Node.state (storeOf [up 5; up 3] 0%nat) = Node.state (storeOf [up 1; up 3] 0%nat)
  /\ bestNode 1 (storeOf [up 5; up 3]) (t0 + 1000) client0
     = Some (Return 1%nat, set_nodes [1%nat; 0%nat] client0).
Proof. repeat split. Qed.

(** C8, refuted. After a rescan has put node 1 first, a tie between the
    two CONNECTED nodes goes to node 1, not to node 0, which was registered
    first. *)
Lemma bestNode_tie_not_by_registration :
  Vulkava_new twoNodes = Return client0
  /\ bestNode 1 (storeOf [up 5; up 1]) t0 client0
     = Some (Return 1%nat, set_nodes [1%nat; 0%nat] client0)
  /\ bestNode 1 (storeOf [up 2; up 2]) (t0 + 60000) (set_nodes [1%nat; 0%nat] client0)
     = Some (Return 1%nat, set_nodes [1%nat; 0%nat] client0)
  /\ connected (storeOf [up 2; up 2]) 0%nat = true
  /\ connected (storeOf [up 2; up 2]) 1%nat = true
  /\ penalty (storeOf [up 2; up 2]) 0%nat = penalty (storeOf [up 2; up 2]) 1%nat.
Proof. repeat split. Qed.

Lemma seq_later (n : nat) (l1 l2 : list nat) (a b : nat) :
  seq 0 n = l1 ++ a :: l2 -> b ∈ l2 -> (a < b)%nat.
Proof.
  intros E Hb. apply list_elem_of_lookup in Hb as [j Hj].
  assert (Ha : seq 0 n !! length l1 = Some a).
  { rewrite E. by rewrite list_lookup_middle. }
  assert (Hb : seq 0 n !! (length l1 + S j)%nat = Some b).
  { rewrite E. rewrite lookup_app_r by lia.
    replace (length l1 + S j - length l1)%nat with (S j) by lia. exact Hj. }
  apply lookup_seq in Ha as [-> _]. apply lookup_seq in Hb as [-> _]. lia.
Qed.

(** C8, amended. A rescan that returns a node returns the node that comes
    earliest in the array, as it stands, among those with the least
    penalty; on the array the constructor built that is the node registered
    first; and further calls, at any time, return the same node while the
    store is the same. *)
Theorem bestNode_tie_break (fuel : nat) (σ : NodeStore) (now : Z) (v v' : Vulkava) (a : addr) :
  lastNodeSorting v + 30000 <= now ->
  bestNode (S fuel) σ now v = Some (Return a, v') ->
  (exists l1 l2, nodes v = l1 ++ a :: l2
     /\ Forall (fun b => penalty σ a < penalty σ b) l1
     /\ Forall (fun b => penalty σ a <= penalty σ b) l2)
  /\ (forall n b, nodes v = seq 0 n -> b ∈ nodes v ->
        penalty σ b = penalty σ a -> (a <= b)%nat)
  /\ (forall fuel' now', bestNode (S fuel') σ now' v' = Some (Return a, v')).
Proof.
  intros Hnow H. rewrite bestNode_rescan in H by done. simpl in H.
  destruct (Array_sort (byPenalties σ) (nodes v)) as [|b l] eqn:E; [discriminate|].
  destruct (connected σ b) eqn:Hc; [|discriminate]. injection H as <- <-.
  destruct (Array_sort_head (penalty σ) _ _ _ E) as (l1 & l2 & Hv & H1 & H2).
  split; [by exists l1, l2|]. split.
  - intros n c Hn Hin Hp. rewrite Hv in Hin.
    apply elem_of_app in Hin as [Hin|Hin].
    + rewrite Forall_forall in H1. specialize (H1 c Hin). lia.
    + apply elem_of_cons in Hin as [->|Hin]; [lia|].
      rewrite Hn in Hv. pose proof (seq_later _ _ _ _ _ Hv Hin). lia.
  - intros fuel' now'.
    assert (Hfix : Array_sort (byPenalties σ) (b :: l) = b :: l).
    { rewrite <- E. apply (Array_sort_idempotent (penalty σ)). }
    destruct (Z.ltb_spec now' (lastNodeSorting (set_nodes (b :: l) v) + 30000)) as [Hin|Hout].
    + by rewrite (bestNode_cached fuel' σ now' _ b l).
    + rewrite bestNode_rescan by done. cbn [nodes set_nodes]. rewrite Hfix, Hc. done.
Qed.

Lemma bestNode_tie_break_witness :
  exists l1 l2, nodes client0 = l1 ++ 0%nat :: l2
     /\ Forall (fun b => penalty (storeOf [up 2; up 2]) 0%nat < penalty (storeOf [up 2; up 2]) b) l1
     /\ Forall (fun b => penalty (storeOf [up 2; up 2]) 0%nat <= penalty (storeOf [up 2; up 2]) b) l2.
Proof.
  refine (proj1 (bestNode_tie_break 0 (storeOf [up 2; up 2]) t0 client0 client0 0%nat _ _)).
  - vm_compute. discriminate.
  - reflexivity.
Defined.

(** ** [handleVoiceUpdate] *)

Lemma handle_state_update (σ : NodeStore) (v : Vulkava) (g : string)
    (user sid chan : option string) (p : Player.t) :
  g <> "" -> players v !! g = Some p ->
  handleVoiceUpdate σ (voiceStateUpdate g user sid chan) v
  = onVoiceStateUpdate σ (Payload.d (voiceStateUpdate g user sid chan)) g p v.
Proof.
  intros Hg Hp. unfold handleVoiceUpdate. cbn.
  apply String.eqb_neq in Hg. rewrite Hg. cbn. by rewrite Hp.
Qed.

Lemma handle_server_update (σ : NodeStore) (v : Vulkava) (g : string)
    (ep tok : option string) (p : Player.t) :
  g <> "" -> players v !! g = Some p ->
  handleVoiceUpdate σ (voiceServerUpdate g ep tok) v
  = onVoiceServerUpdate σ (Payload.d (voiceServerUpdate g ep tok)) g p v.
Proof.
  intros Hg Hp. unfold handleVoiceUpdate. cbn.
  apply String.eqb_neq in Hg. rewrite Hg. cbn. by rewrite Hp.
Qed.

Lemma lookup_putPlayer (g : string) (p : Player.t) (v : Vulkava) :
  players (putPlayer g p v) !! g = Some p.
Proof. unfold putPlayer. cbn. apply lookup_insert_eq. Qed.

Lemma lookup_putPlayer_ne (g g' : string) (p : Player.t) (v : Vulkava) :
  g <> g' -> players (putPlayer g p v) !! g' = players v !! g'.
Proof. intros H. unfold putPlayer. cbn. by apply lookup_insert_ne. Qed.

Lemma putPlayer_putPlayer (g : string) (p p' : Player.t) (v : Vulkava) :
  putPlayer g p (putPlayer g p' v) = putPlayer g p v.
Proof. unfold putPlayer, set_players. cbn. by rewrite insert_insert_eq. Qed.

Lemma falsy_endpoint (ep : option string) :
  truthy ep = false -> ep = None \/ ep = Some "".
Proof.
  destruct ep as [s|]; [|by left]. cbn. intros H. right. f_equal.
  apply String.eqb_eq. by destruct (String.eqb s "").
Qed.

(** C5. A server-assignment packet whose endpoint is missing or empty
    changes nothing and sends nothing; and after the session-id fact of a
    session that had neither fact, such a packet leaves the session PARTIAL
    with the session id it had stored and no handshake sent. *)
Theorem partial_assignment_is_discarded (σ : NodeStore) (v : Vulkava) (payload : Payload.t)
    (g : string) (user sid chan : option string) (p : Player.t) :
  Payload.t_ payload = "VOICE_SERVER_UPDATE" ->
  truthy (Payload.endpoint (Payload.d payload)) = false ->
  handleVoiceUpdate σ payload v = unchanged v
  /\ (g <> "" -> players v !! g = Some p -> phase p = AWAITING_FACTS ->
      option_string_eqb user (clientId v) = true -> truthy sid = true ->
      let o1 := handleVoiceUpdate σ (voiceStateUpdate g user sid chan) v in
      let o2 := handleVoiceUpdate σ payload (after o1) in
      sent o1 = [] /\ o2 = unchanged (after o1)
      /\ exists p', players (after o2) !! g = Some p'
           /\ phase p' = PARTIAL
           /\ Player.sessionId (Player.voiceState p') = sid
           /\ Player.event (Player.voiceState p') = None).
Proof.
  intros Ht Hep.
  assert (Hnoop : forall w, handleVoiceUpdate σ payload w = unchanged w).
  { intros w. unfold handleVoiceUpdate. rewrite Ht. cbn.
    destruct (negb _ || negb _); [done|].
    destruct (Payload.guild_id _); [|done]. destruct (players w !! _); [|done].
    unfold onVoiceServerUpdate.
    destruct (falsy_endpoint _ Hep) as [-> | ->]; done. }
  split; [apply Hnoop|].
  intros Hg Hp Hph Hu Hs o1 o2. subst o2. rewrite Hnoop.
  subst o1. rewrite (handle_state_update _ _ _ _ _ _ p) by done.
  unfold onVoiceStateUpdate. cbn. rewrite Hu. cbn.
  assert (Hev : Player.event (Player.voiceState p) = None).
  { unfold phase in Hph. destruct (sessionFact p), (Player.event _); done. }
  assert (Hout : forall q, Player.event (Player.voiceState q) = None ->
            Player.sessionId (Player.voiceState q) = sid ->
            sent (afterCall g v (Return tt, q, [])) = []
            /\ exists p', players (after (unchanged (after (afterCall g v (Return tt, q, []))))) !! g
                           = Some p'
                 /\ phase p' = PARTIAL
                 /\ Player.sessionId (Player.voiceState p') = sid
                 /\ Player.event (Player.voiceState p') = None).
  { intros q Hq Hsid. split; [done|]. exists q. cbn. rewrite lookup_insert_eq.
    repeat split; try done. unfold phase, sessionFact. rewrite Hsid, Hs, Hq.
    by destruct sid. }
  destruct (truthy chan); cbn; rewrite Hev.
  - destruct (Hout (Player.set_voiceChannelId chan (Player.set_sessionId sid p)))
      as [? ?]; by cbn.
  - destruct (Hout (Player.set_sessionId sid p)) as [? ?]; by cbn.
Qed.

Lemma partial_assignment_is_discarded_witness :
  sent (handleVoiceUpdate (storeOf [up 1; up 3]) sessionIdFact client1) = []
  /\ exists p',
       players (after (handleVoiceUpdate (storeOf [up 1; up 3])
                         (voiceServerUpdate "G1" (Some "") (Some "T1"))
                         (after (handleVoiceUpdate (storeOf [up 1; up 3]) sessionIdFact client1))))
         !! "G1" = Some p'
       /\ phase p' = PARTIAL.
Proof.
  destruct (partial_assignment_is_discarded (storeOf [up 1; up 3]) client1
              (voiceServerUpdate "G1" (Some "") (Some "T1"))
              "G1" (Some "bot") (Some "S1") None lobby eq_refl eq_refl) as [_ H].
  destruct H as (H1 & H2 & p' & H3 & H4 & _); try done.
  split; [exact H1|]. exists p'. split; [|exact H4]. exact H3.
Defined.

Lemma sendVoiceUpdate_keeps_node (σ : NodeStore) (p : Player.t) :
  Player.node (sendVoiceUpdate σ p).1.2 = Player.node p
  /\ Player.voiceState (sendVoiceUpdate σ p).1.2 = Player.voiceState p
  /\ Forall (fun m => Some (vu_node m) = Player.node p) (sendVoiceUpdate σ p).2.
Proof.
  unfold sendVoiceUpdate. destruct (facts p); [|by cbn].
  destruct (Player.node p) as [a|] eqn:E; [|by cbn].
  destruct (connected σ a); cbn; rewrite ?E; repeat split; auto.
Qed.

(** A server-assignment fact for a player whose node has no region label
    goes straight to the last statement of the branch. *)
Lemma onVoiceServerUpdate_unlabelled (σ : NodeStore) (d : Payload.data) (g ep : string)
    (p : Player.t) (v : Vulkava) (n : addr) :
  Payload.endpoint d = Some ep -> ep <> "" -> Player.node p = Some n ->
  truthy (Node.region (σ n)) = false ->
  onVoiceServerUpdate σ d g p v
  = afterCall g v
      (if truthy (Player.sessionId (Player.voiceState p))
       then sendVoiceUpdate σ (Player.set_event (Some d) p)
       else (Return tt, Player.set_event (Some d) p, [])).
Proof.
  intros Hep Hne Hn Hr. unfold onVoiceServerUpdate. rewrite Hep.
  apply String.eqb_neq in Hne. rewrite Hne. cbn [negb]. cbn beta iota zeta.
  replace (Player.node (Player.set_event (Some d) p)) with (Some n) by (by rewrite <- Hn).
  rewrite Hr. cbn [andb].
  replace (Player.sessionId (Player.voiceState (Player.set_event (Some d) p)))
    with (Player.sessionId (Player.voiceState p)) by done.
  destruct (impliesUSA ep); destruct (truthy (Player.sessionId _)); reflexivity.
Qed.

(** C10. When the node of the session has no region label, a
    server-assignment fact with a non-empty endpoint never migrates the
    session, whatever the endpoint: the delivery stores the fact and goes on
    to [sendVoiceUpdate] exactly when the session id is known; the session
    keeps its node, nothing is sent to another node, and with the session
    id known and the node CONNECTED the handshake is sent to that node. *)
Theorem unlabelled_node_is_kept (σ : NodeStore) (v : Vulkava) (g ep : string)
    (tok : option string) (p : Player.t) (n : addr) :
  g <> "" -> ep <> "" -> players v !! g = Some p ->
  Player.node p = Some n -> truthy (Node.region (σ n)) = false ->
  let payload := voiceServerUpdate g (Some ep) tok in
  let o := handleVoiceUpdate σ payload v in
  o = afterCall g v
        (if truthy (Player.sessionId (Player.voiceState p))
         then sendVoiceUpdate σ (Player.set_event (Some (Payload.d payload)) p)
         else (Return tt, Player.set_event (Some (Payload.d payload)) p, []))
  /\ (exists p', players (after o) !! g = Some p'
      /\ Player.node p' = Some n
      /\ Player.event (Player.voiceState p') = Some (Payload.d payload)
      /\ Player.sessionId (Player.voiceState p') = Player.sessionId (Player.voiceState p))
  /\ Forall (fun m => vu_node m = n) (sent o)
  /\ (forall sid, sessionFact p = Some sid -> connected σ n = true ->
        completion o = Return tt
        /\ sent o = [handshake n (Player.guildId p) (sid, ep, tok)]).
Proof.
  intros Hg Hep Hp Hn Hr payload o.
  assert (Ho : o = afterCall g v
                 (if truthy (Player.sessionId (Player.voiceState p))
                  then sendVoiceUpdate σ (Player.set_event (Some (Payload.d payload)) p)
                  else (Return tt, Player.set_event (Some (Payload.d payload)) p, []))).
  { subst o payload. rewrite (handle_server_update _ _ _ _ _ p) by done.
    by rewrite (onVoiceServerUpdate_unlabelled _ _ _ ep _ _ n). }
  split; [exact Ho|]. rewrite Ho. clear Ho o.
  set (d := Payload.d payload).
  destruct (sendVoiceUpdate_keeps_node σ (Player.set_event (Some d) p)) as (Hk1 & Hk2 & Hk3).
  split; [|split].
  - destruct (truthy (Player.sessionId _)).
    + destruct (sendVoiceUpdate σ _) as [[c q] out] eqn:E. cbn in *.
      exists q. rewrite lookup_insert_eq. rewrite Hk1, Hk2. by cbn.
    + exists (Player.set_event (Some d) p). cbn. by rewrite lookup_insert_eq.
  - destruct (truthy (Player.sessionId _)); [|by cbn].
    destruct (sendVoiceUpdate σ _) as [[c q] out] eqn:E. cbn in *.
    eapply Forall_impl; [exact Hk3|]. cbn. intros m Hm. congruence.
  - intros sid Hsid Hc. unfold sessionFact in Hsid.
    destruct (truthy (Player.sessionId (Player.voiceState p))) eqn:Ht; [|done].
    unfold sendVoiceUpdate, facts, sessionFact. cbn. rewrite Ht, Hsid, Hn, Hc. by cbn.
Qed.

Lemma unlabelled_node_is_kept_witness :
  truthy (Node.region (storeOf [up 1; up 3] 0%nat)) = false
  /\ exists p',
       players (after (handleVoiceUpdate (storeOf [up 1; up 3])
                         (voiceServerUpdate "G1" (Some "us-east42.discord.media") (Some "T1"))
                         client1)) !! "G1" = Some p'
       /\ Player.node p' = Some 0%nat.
Proof.
  split; [reflexivity|].
  destruct (unlabelled_node_is_kept (storeOf [up 1; up 3]) client1 "G1"
              "us-east42.discord.media" (Some "T1") lobby 0%nat)
    as (_ & (p' & H1 & H2 & _) & _); try done.
  exists p'. split; [exact H1 | exact H2].
Defined.

(** *** The two branches, by cases *)


Lemma onVoiceServerUpdate_cases (σ : NodeStore) (d : Payload.data) (g ep : string)
    (p : Player.t) (v : Vulkava) :
  Payload.endpoint d = Some ep -> ep <> "" ->
  onVoiceServerUpdate σ d g p v
  = let p1 := Player.set_event (Some d) p in
    match Player.node p with
    | None => afterCall g v (Throw AssertionFailed,
                             Player.set_state ConnectionState.DISCONNECTED p1, [])
    | Some n =>
        match migrationTarget σ v n ep with
        | Some n' => afterCall g v (moveNode σ p1 n')
        | None =>
            afterCall g v
              (if truthy (Player.sessionId (Player.voiceState p))
               then sendVoiceUpdate σ p1 else (Return tt, p1, []))
        end
    end.
Proof.
  intros Hep Hne. unfold onVoiceServerUpdate. rewrite Hep.
  apply String.eqb_neq in Hne. rewrite Hne. cbn beta iota zeta.
  replace (Player.node (Player.set_event (Some d) p)) with (Player.node p) by done.
  destruct (Player.node p) as [n|]; [|done].
  replace (Player.sessionId (Player.voiceState (Player.set_event (Some d) p)))
    with (Player.sessionId (Player.voiceState p)) by done.
  unfold migrationTarget.
  destruct (impliesUSA ep);
    (destruct (truthy (Node.region (σ n)) && negb _);
     [destruct (regionNodes σ _ v) | ];
     cbn [head]; try reflexivity;
     destruct (truthy (Player.sessionId (Player.voiceState p))); reflexivity).
Qed.

Lemma handle_throws_nothing_else (σ : NodeStore) (payload : Payload.t) (v : Vulkava) (e : Error) :
  completion (handleVoiceUpdate σ payload v) = Throw e ->
  e = AssertionFailed /\ sent (handleVoiceUpdate σ payload v) = [].
Proof.
  unfold handleVoiceUpdate.
  destruct (negb _ || negb _); [done|].
  destruct (Payload.guild_id _) as [g|]; [|done].
  destruct (players v !! g) as [p|]; [|done].
  destruct (String.eqb _ "VOICE_STATE_UPDATE").
  - unfold onVoiceStateUpdate. destruct (negb _); [done|]. cbn zeta.
    match goal with |- context [Player.event (Player.voiceState ?q)] =>
      destruct (Player.event (Player.voiceState q)); [|done];
      unfold sendVoiceUpdate; destruct (facts q); [|done];
      destruct (Player.node q) as [a|]; [destruct (connected σ a)|] end;
      cbn; intros; by simplify_eq.
  - destruct (String.eqb _ "VOICE_SERVER_UPDATE"); [|done].
    destruct (Payload.endpoint (Payload.d payload)) as [ep|] eqn:Hep;
      [|by unfold onVoiceServerUpdate; rewrite Hep].
    destruct (String.eqb_spec ep "") as [->|Hne];
      [by unfold onVoiceServerUpdate; rewrite Hep|].
    rewrite (onVoiceServerUpdate_cases _ _ _ ep) by done. cbn zeta.
    destruct (Player.node p) as [n|] eqn:Hn; [|cbn; intros; by simplify_eq].
    destruct (migrationTarget σ v n ep) as [n'|].
    + unfold moveNode, sendVoiceUpdate. destruct (facts _); [|done].
      cbn [Player.node Player.set_node].
      destruct (connected σ n'); cbn; intros; by simplify_eq.
    + destruct (truthy _); [|done].
      unfold sendVoiceUpdate. destruct (facts _); [|done].
      replace (Player.node (Player.set_event _ p)) with (Player.node p) by done. rewrite Hn.
      destruct (connected σ n); cbn; intros; by simplify_eq.
Qed.

Lemma afterCall_after (g : string) (v : Vulkava) (s : PlayerStep) :
  after (afterCall g v s) = putPlayer g s.1.2 v.
Proof. by destruct s as [[c q] out]. Qed.

Lemma afterCall_sent (g : string) (v : Vulkava) (s : PlayerStep) :
  sent (afterCall g v s) = s.2.
Proof. by destruct s as [[c q] out]. Qed.

Lemma afterCall_completion (g : string) (v : Vulkava) (s : PlayerStep) :
  completion (afterCall g v s) = s.1.1.
Proof. by destruct s as [[c q] out]. Qed.

Ltac branch :=
  match goal with
  | |- context [if ?b then _ else _] => destruct b
  | |- context [match ?x with _ => _ end] => destruct x
  end.

(** The client after a delivery is the client before, or differs from it by
    the player of the packet's guild. *)
Lemma handle_after (σ : NodeStore) (payload : Payload.t) (v : Vulkava) :
  after (handleVoiceUpdate σ payload v) = v
  \/ exists g q, Payload.guild_id (Payload.d payload) = Some g
       /\ after (handleVoiceUpdate σ payload v) = putPlayer g q v.
Proof.
  unfold handleVoiceUpdate.
  destruct (negb _ || negb _); [by left|].
  destruct (Payload.guild_id _) as [g|]; [|by left].
  destruct (players v !! g) as [p|]; [|by left].
  destruct (String.eqb _ "VOICE_STATE_UPDATE").
  - unfold onVoiceStateUpdate. destruct (negb _); [by left|]. cbn zeta.
    right. exists g. branch; eexists; (split; [done|]); apply afterCall_after.
  - destruct (String.eqb _ "VOICE_SERVER_UPDATE"); [|by left].
    unfold onVoiceServerUpdate.
    destruct (Payload.endpoint _) as [ep|]; [|by left].
    destruct (String.eqb ep ""); [by left|]. cbn zeta.
    right. exists g. repeat branch; eexists; (split; [done|]); apply afterCall_after.
Qed.

Lemma putPlayer_onlySession (g : string) (q : Player.t) (v : Vulkava) (o : Outcome) :
  after o = putPlayer g q v -> onlySession g v o.
Proof.
  intros H. unfold onlySession. rewrite H. repeat split.
  intros g' Hg. by apply lookup_putPlayer_ne.
Qed.

Lemma handle_onlySession (σ : NodeStore) (payload : Payload.t) (v : Vulkava) (g : string) :
  Payload.guild_id (Payload.d payload) = Some g ->
  onlySession g v (handleVoiceUpdate σ payload v).
Proof.
  intros Hg. destruct (handle_after σ payload v) as [H | (g' & q & Hg' & H)].
  - unfold onlySession. by rewrite H.
  - rewrite Hg in Hg'. injection Hg' as <-. by eapply putPlayer_onlySession.
Qed.

(** *** The calls on the player *)

Lemma sendVoiceUpdate_no_facts (σ : NodeStore) (p : Player.t) :
  facts p = None -> sendVoiceUpdate σ p = (Return tt, p, []).
Proof. intros H. unfold sendVoiceUpdate. by rewrite H. Qed.

Lemma sendVoiceUpdate_emits (σ : NodeStore) (p : Player.t) (a : addr)
    (f : string * string * option string) :
  facts p = Some f -> Player.node p = Some a -> connected σ a = true ->
  sendVoiceUpdate σ p
  = (Return tt, Player.set_state ConnectionState.CONNECTED p, [handshake a (Player.guildId p) f]).
Proof. intros Hf Hn Hc. unfold sendVoiceUpdate. by rewrite Hf, Hn, Hc. Qed.


(** On a session without a node that is DISCONNECTED already, the call
    leaves the player as it is, whether it throws or not. *)
Lemma sendVoiceUpdate_nodeless (σ : NodeStore) (p : Player.t) :
  Player.node p = None -> Player.state p = ConnectionState.DISCONNECTED ->
  (sendVoiceUpdate σ p).1.2 = p /\ (sendVoiceUpdate σ p).2 = [].
Proof.
  intros Hn Hs. unfold sendVoiceUpdate. destruct (facts p); [|done]. rewrite Hn. cbn.
  split; [|done]. destruct p as [gid vc vs nd st]. cbn in Hs. by subst st.
Qed.

Lemma facts_None (p : Player.t) :
  truthy (Player.sessionId (Player.voiceState p)) = false
  \/ Player.event (Player.voiceState p) = None ->
  facts p = None.
Proof.
  unfold facts, sessionFact. intros [-> | ->]; [done|].
  by destruct (if truthy _ then _ else _).
Qed.

Lemma migrationTarget_nodes (σ : NodeStore) (v w : Vulkava) (n : addr) (ep : string) :
  nodes w = nodes v -> migrationTarget σ w n ep = migrationTarget σ v n ep.
Proof. intros H. unfold migrationTarget, regionNodes. by rewrite H. Qed.

Lemma ownerAfter_nodes (σ : NodeStore) (v w : Vulkava) (n : addr) (ep : string) :
  nodes w = nodes v -> ownerAfter σ w n ep = ownerAfter σ v n ep.
Proof. intros H. unfold ownerAfter. by rewrite (migrationTarget_nodes _ v). Qed.


(** Both guards before [sendVoiceUpdate] test a fact that the call needs
    as well, so each branch comes down to one call on the player as
    stored, on the node the session has by then. *)
Lemma onVoiceStateUpdate_send (σ : NodeStore) (d : Payload.data) (g : string)
    (p : Player.t) (v : Vulkava) :
  option_string_eqb (Payload.user_id d) (clientId v) = true ->
  onVoiceStateUpdate σ d g p v
  = afterCall g v
      (sendVoiceUpdate σ
         (if truthy (Payload.channel_id d)
          then Player.set_voiceChannelId (Payload.channel_id d)
                 (Player.set_sessionId (Payload.session_id d) p)
          else Player.set_sessionId (Payload.session_id d) p)).
Proof.
  intros Hu. unfold onVoiceStateUpdate. rewrite Hu. cbn [negb]. cbn zeta.
  destruct (Player.event _) eqn:E; [done|].
  rewrite sendVoiceUpdate_no_facts; [done|]. apply facts_None. by right.
Qed.

Lemma onVoiceServerUpdate_send (σ : NodeStore) (d : Payload.data) (g ep : string)
    (p : Player.t) (v : Vulkava) (n : addr) :
  Payload.endpoint d = Some ep -> ep <> "" -> Player.node p = Some n ->
  onVoiceServerUpdate σ d g p v
  = afterCall g v
      (sendVoiceUpdate σ
         (Player.set_node (Some (ownerAfter σ v n ep)) (Player.set_event (Some d) p))).
Proof.
  intros Hep Hne Hn. rewrite (onVoiceServerUpdate_cases _ _ _ ep) by done. cbn zeta.
  rewrite Hn. unfold ownerAfter. destruct (migrationTarget σ v n ep) as [n'|]; [done|].
  cbn [default].
  replace (Player.set_node (Some n) (Player.set_event (Some d) p))
    with (Player.set_event (Some d) p)
    by (destruct p as [gid vc vs nd st]; cbn in Hn; by subst nd).
  destruct (truthy _) eqn:Ht; [done|].
  rewrite sendVoiceUpdate_no_facts; [done|]. apply facts_None. by left.
Qed.

(** A voice state of another user is ignored, whatever the client holds. *)
Lemma handle_foreign_state (σ : NodeStore) (w : Vulkava) (g : string)
    (user sid chan : option string) :
  option_string_eqb user (clientId w) = false ->
  handleVoiceUpdate σ (voiceStateUpdate g user sid chan) w = unchanged w.
Proof.
  intros H. unfold handleVoiceUpdate. cbn.
  destruct (negb (negb _)); [done|]. destruct (players w !! g); [|done].
  unfold onVoiceStateUpdate. cbn. by rewrite H.
Qed.



(** *** The two orders of arrival *)

(** C6. For a session with neither fact, the session-id fact followed by
    a complete server-assignment fact leaves the same client, and so the
    same session, as the two in the other order, and the same payloads
    have been sent. When the session-id fact is the client's own and the
    node that owns the session in the end is CONNECTED, that is the one
    handshake with the session id, the endpoint and the token, and the
    session ends READY, its handshake sent, on that node. *)
Theorem reconciliation_commutes (σ : NodeStore) (v : Vulkava) (g ep : string)
    (user sid chan tok : option string) (p : Player.t) :
  g <> "" -> ep <> "" -> players v !! g = Some p -> phase p = AWAITING_FACTS ->
  let A := voiceStateUpdate g user sid chan in
  let B := voiceServerUpdate g (Some ep) tok in
  let a1 := handleVoiceUpdate σ A v in
  let a2 := handleVoiceUpdate σ B (after a1) in
  let b1 := handleVoiceUpdate σ B v in
  let b2 := handleVoiceUpdate σ A (after b1) in
  after a2 = after b2
  /\ sent a1 ++ sent a2 = sent b1 ++ sent b2
  /\ (forall n s, option_string_eqb user (clientId v) = true ->
        sid = Some s -> s <> "" -> Player.node p = Some n ->
        connected σ (ownerAfter σ v n ep) = true ->
        sent a1 ++ sent a2
        = [handshake (ownerAfter σ v n ep) (Player.guildId p) (s, ep, tok)]
        /\ exists q, players (after a2) !! g = Some q
             /\ phase q = READY
             /\ Player.state q = ConnectionState.CONNECTED
             /\ Player.node q = Some (ownerAfter σ v n ep)).
Proof.
  intros Hg Hep Hp Hph A B a1 a2 b1 b2.
  assert (Hev : Player.event (Player.voiceState p) = None
                /\ truthy (Player.sessionId (Player.voiceState p)) = false).
  { unfold phase, sessionFact in Hph.
    destruct (Player.event (Player.voiceState p));
      destruct (truthy (Player.sessionId (Player.voiceState p))) eqn:E; try done;
      destruct (Player.sessionId (Player.voiceState p)); done. }
  destruct Hev as [Hev Hsf].
  set (dB := Payload.d B).
  assert (Eb1 : b1 = onVoiceServerUpdate σ dB g p v)
    by (subst b1 B; by apply handle_server_update).
  destruct (option_string_eqb user (clientId v)) eqn:Hu.
  2:{ (* the voice state is another user's: it is ignored in both places *)
    assert (Ea1 : a1 = unchanged v) by (subst a1 A; by apply handle_foreign_state).
    assert (Eb2 : b2 = unchanged (after b1)).
    { subst b2 A. apply handle_foreign_state.
      pose proof (handle_onlySession σ B v g eq_refl) as (_ & _ & _ & Hid & _).
      change (clientId (after b1) = clientId v) in Hid. by rewrite Hid. }
    subst a2. rewrite Ea1, Eb2. cbn [after sent unchanged]. fold b1.
    rewrite app_nil_r. split; [done|]. split; [done|].
    intros ? ? Hcontra. discriminate Hcontra. }
  (* what the session-id fact stores *)
  pose (SA := fun q : Player.t =>
                if truthy chan
                then Player.set_voiceChannelId chan (Player.set_sessionId sid q)
                else Player.set_sessionId sid q).
  assert (HA : forall q w, clientId w = clientId v -> players w !! g = Some q ->
             handleVoiceUpdate σ A w = afterCall g w (sendVoiceUpdate σ (SA q))).
  { intros q w Hw Hq. subst A. rewrite (handle_state_update _ _ _ _ _ _ q) by done.
    rewrite onVoiceStateUpdate_send; [done|]. cbn. by rewrite Hw. }
  assert (Ea1 : a1 = {| completion := Return tt; after := putPlayer g (SA p) v; sent := [] |}).
  { subst a1. rewrite (HA p v) by done. rewrite sendVoiceUpdate_no_facts; [done|].
    apply facts_None. right. subst SA. cbn beta. by destruct (truthy chan). }
  assert (Ea2 : a2 = onVoiceServerUpdate σ dB g (SA p) (putPlayer g (SA p) v)).
  { subst a2. rewrite Ea1. cbn [after]. subst B.
    apply handle_server_update; [done | apply lookup_putPlayer]. }
  assert (HSA : forall q, Player.node (SA q) = Player.node q
                          /\ Player.guildId (SA q) = Player.guildId q
                          /\ Player.state (SA q) = Player.state q
                          /\ Player.event (Player.voiceState (SA q))
                             = Player.event (Player.voiceState q)
                          /\ Player.sessionId (Player.voiceState (SA q)) = sid)
    by (intros q; subst SA; cbn beta; by destruct (truthy chan)).
  destruct (Player.node p) as [n|] eqn:Hn.
  - (* the session has a node *)
    set (o := ownerAfter σ v n ep).
    set (r := Player.set_node (Some o) (Player.set_event (Some dB) (SA p))).
    assert (Ea2' : a2 = afterCall g (putPlayer g (SA p) v) (sendVoiceUpdate σ r)).
    { rewrite Ea2. rewrite (onVoiceServerUpdate_send _ _ _ ep _ _ n);
        [| done | done | by rewrite (proj1 (HSA p))].
      by rewrite (ownerAfter_nodes _ v). }
    assert (Eb1' : b1 = {| completion := Return tt;
                           after := putPlayer g (Player.set_node (Some o)
                                                   (Player.set_event (Some dB) p)) v;
                           sent := [] |}).
    { rewrite Eb1. rewrite (onVoiceServerUpdate_send _ _ _ ep _ _ n) by done.
      rewrite sendVoiceUpdate_no_facts; [done|]. apply facts_None. by left. }
    assert (Eb2 : b2 = afterCall g (after b1) (sendVoiceUpdate σ r)).
    { subst b2. rewrite Eb1'. cbn [after].
      rewrite (HA (Player.set_node (Some o) (Player.set_event (Some dB) p)));
        [| done | apply lookup_putPlayer].
      do 2 f_equal. subst r SA. cbn beta.
      destruct p as [gid vc [s0 e] nd st]. by destruct (truthy chan). }
    rewrite Ea2', Eb2, Eb1', Ea1. rewrite !afterCall_after, !afterCall_sent.
    cbn [after sent]. rewrite !putPlayer_putPlayer.
    split; [done|]. split; [done|].
    intros n' s _ -> Hs [= <-] Hc. fold o in Hc.
    assert (Hf : facts r = Some (s, ep, tok)).
    { subst r. unfold facts, sessionFact.
      cbn [Player.voiceState Player.sessionId Player.event Player.set_node Player.set_event].
      rewrite (proj2 (proj2 (proj2 (proj2 (HSA p))))). cbn [truthy].
      apply String.eqb_neq in Hs. by rewrite Hs. }
    rewrite (sendVoiceUpdate_emits _ _ o (s, ep, tok)); [| done | done | done].
    cbn [fst snd app]. split.
    + do 2 f_equal. subst r. cbn. apply (HSA p).
    + eexists. split; [apply lookup_putPlayer|].
      split; [|split; done].
      unfold phase. unfold facts in Hf.
      replace (sessionFact (Player.set_state ConnectionState.CONNECTED r))
        with (sessionFact r) by done.
      replace (Player.event (Player.voiceState (Player.set_state ConnectionState.CONNECTED r)))
        with (Player.event (Player.voiceState r)) by done.
      by destruct (sessionFact r), (Player.event (Player.voiceState r)).
  - (* the session has no node: both deliveries of the assignment throw *)
    set (x := Player.set_state ConnectionState.DISCONNECTED
                (Player.set_event (Some dB) (SA p))).
    assert (Ea2' : a2 = afterCall g (putPlayer g (SA p) v) (Throw AssertionFailed, x, [])).
    { rewrite Ea2. rewrite (onVoiceServerUpdate_cases _ _ _ ep) by done. cbn zeta.
      by rewrite (proj1 (HSA p)), Hn. }
    assert (Eb1' : b1 = afterCall g v
                          (Throw AssertionFailed,
                           Player.set_state ConnectionState.DISCONNECTED
                             (Player.set_event (Some dB) p), [])).
    { rewrite Eb1. rewrite (onVoiceServerUpdate_cases _ _ _ ep) by done. cbn zeta.
      by rewrite Hn. }
    assert (Eb2 : b2 = afterCall g (after b1) (sendVoiceUpdate σ x)).
    { subst b2. rewrite Eb1'. cbn [after afterCall].
      rewrite (HA (Player.set_state ConnectionState.DISCONNECTED
                     (Player.set_event (Some dB) p)));
        [| done | apply lookup_putPlayer].
      do 2 f_equal. subst x SA. cbn beta.
      destruct p as [gid vc [s0 e] nd st]. by destruct (truthy chan). }
    destruct (sendVoiceUpdate_nodeless σ x) as [Hx1 Hx2];
      [subst x; cbn; by rewrite (proj1 (HSA p)) | done |].
    rewrite Ea2', Eb2, Eb1', Ea1. rewrite !afterCall_after, !afterCall_sent.
    cbn [after sent fst snd]. rewrite Hx1, Hx2. rewrite !putPlayer_putPlayer.
    split; [done|]. split; [done|]. intros n s _ _ _ Hcontra. discriminate Hcontra.
Qed.

Lemma reconciliation_commutes_witness :
  let σ := twoRegions in
  let a1 := handleVoiceUpdate σ sessionIdFact client1 in
  let a2 := handleVoiceUpdate σ serverFact (after a1) in
  let b1 := handleVoiceUpdate σ serverFact client1 in
  let b2 := handleVoiceUpdate σ sessionIdFact (after b1) in
  after a2 = after b2
  /\ sent a1 ++ sent a2 = sent b1 ++ sent b2
  /\ sent a1 ++ sent a2 = [handshake 1%nat "G1" ("S1", "us-east42.discord.media", Some "T1")].
Proof.
  destruct (reconciliation_commutes twoRegions client1 "G1"
              "us-east42.discord.media" (Some "bot") (Some "S1") None (Some "T1") lobby)
    as (H1 & H2 & H3).
  - done.
  - done.
  - reflexivity.
  - reflexivity.
  - split; [exact H1|]. split; [exact H2|].
    destruct (H3 0%nat "S1" eq_refl eq_refl) as [H _];
      [done | reflexivity | reflexivity | exact H].
Defined.

(** ** [search] *)

(** C4, refuted. No node is CONNECTED and the query is an Apple Music album
    URL, which the collaborator resolves: [search] throws 'No connected
    nodes!' before any collaborator is probed. *)
Lemma search_selects_node_first :
  let v := start "bot" client0 in
  loadFromAppleMusic v albumUrl = Return (playlistLoaded sampleAlbum)
  /\ search sampleTrack_new sampleRequest 1 (storeOf [down 1; down 3]) t0 albumUrl None v
     = Some {| found := Throw NoConnectedNodes; client := v; requests := [] |}.
Proof. vm_compute. split; reflexivity. Qed.

Section SearchFacts.
Variable Track_new : ITrack -> Track.
Variable request : addr -> string -> Completion LoadTracksResult.

Lemma requests_finish (query : string) (res : LoadTracksResult) (v : Vulkava)
    (reqs : list (addr * string)) :
  requests (finish Track_new query res v reqs) = reqs.
Proof. unfold finish. by destruct (raw_loadType res). Qed.

Lemma requests_load (node : addr) (query : string) (c : list (string * LoadTracksResult))
    (v : Vulkava) :
  requests (load Track_new request node query c v) = [(node, query)].
Proof. unfold load. destruct (request node query); [apply requests_finish | done]. Qed.

(** With [lastNodeSorting] at 0 and a clock past 30000, [search] comes to
    an end with a fuel of 1. *)
Lemma search_total (σ : NodeStore) (now : Z) (query : string) (source : option string)
    (v : Vulkava) :
  lastNodeSorting v = 0 -> 30000 <= now ->
  exists step, search Track_new request 1 σ now query source v = Some step.
Proof.
  intros H0 Hnow. destruct (bestNode_total σ now v H0 Hnow) as (c & v1 & Hb & _).
  unfold search. rewrite Hb. destruct c as [node|e]; [|eauto].
  destruct (orElse _ _) as [[r|]|e]; eauto.
  destruct (cache v1) as [[|x entries]|]; eauto.
  destruct (cacheLookup _ _); eauto.
Qed.

Ltac settled H :=
  injection H as <-; repeat split; intros; destruct_and?; simplify_eq; done.

(** C4, amended. [search] selects [bestNode] first and fails as the
    selection fails. Then it asks Apple Music, Deezer and Spotify in that
    order; the first to resolve the query gives the result, whatever the
    cache holds, and no request goes to a node. A request goes to a node,
    the selected one and with the final query string, exactly when the
    three collaborators all decline and the cache has no entry for that
    string. *)
Theorem search_order (fuel : nat) (σ : NodeStore) (now : Z) (query : string)
    (source : option string) (v : Vulkava) (step : SearchStep) :
  search Track_new request fuel σ now query source v = Some step ->
  exists c v1, bestNode fuel σ now v = Some (c, v1) /\
    match c with
    | Throw e => step = {| found := Throw e; client := v1; requests := [] |}
    | Return node =>
        let apple := loadFromAppleMusic v1 query in
        let dz := loadFromDeezer v1 query in
        let sp := loadFromSpotify v1 query in
        let q := identifier (default (defaultSearchSource v1) source) query in
        let resolved r :=
          step = {| found := Return (Wrapped r); client := v1; requests := [] |} in
        (forall r, apple = Return (Some r) -> resolved r)
        /\ (forall r, apple = Return None -> dz = Return (Some r) -> resolved r)
        /\ (forall r, apple = Return None -> dz = Return None ->
              sp = Return (Some r) -> resolved r)
        /\ (requests step <> [] <->
              apple = Return None /\ dz = Return None /\ sp = Return None
              /\ exists entries, cache v1 = Some entries /\ cacheLookup q entries = None)
        /\ (requests step <> [] -> requests step = [(node, q)])
    end.
Proof.
  unfold search. destruct (bestNode fuel σ now v) as [[[node|e] v1]|]; [| |done].
  2:{ intros [= <-]. by exists (Throw e), v1. }
  intros H. exists (Return node), v1. split; [done|]. cbn zeta.
  unfold orElse in H.
  destruct (loadFromAppleMusic v1 query) as [[r|]|e]; cbn in H;
    [settled H | |
     settled H].
  destruct (loadFromDeezer v1 query) as [[r|]|e]; cbn in H;
    [settled H | |
     settled H].
  destruct (loadFromSpotify v1 query) as [[r|]|e]; cbn in H;
    [settled H | |
     settled H].
  destruct (cache v1) as [entries|];
    [|injection H as <-; repeat split; try done; by intros (_ & _ & _ & ? & ? & _)].
  destruct entries as [|x entries].
  { injection H as <-. rewrite requests_load. repeat split; try done.
    by exists []. }
  destruct (cacheLookup _ (x :: entries)) as [res|] eqn:Hc.
  - injection H as <-. rewrite requests_finish. repeat split; try done.
    intros (_ & _ & _ & entries' & [= <-] & Hc'). congruence.
  - injection H as <-. rewrite requests_load. repeat split; try done.
    by exists (x :: entries).
Qed.
End SearchFacts.

Lemma search_order_witness :
  exists c v1,
    bestNode 1 (storeOf [up 1; up 3]) t0 (start "bot" client0) = Some (c, v1)
    /\ search sampleTrack_new sampleRequest 1 (storeOf [up 1; up 3]) t0 albumUrl None
         (start "bot" client0)
       = Some {| found := Return (Wrapped {| loadType := PLAYLIST_LOADED;
                                             playlistInfo := {| name := Some "Album";
                                                                pl_duration := Some 300;
                                                                selectedTrack := Some 0 |};
                                             tracks := list_tracks sampleAlbum |});
                 client := start "bot" client0; requests := [] |}.
Proof.
  assert (H0 : search sampleTrack_new sampleRequest 1 (storeOf [up 1; up 3]) t0 albumUrl None
                 (start "bot" client0)
               = Some {| found := Return (Wrapped {| loadType := PLAYLIST_LOADED;
                                             playlistInfo := {| name := Some "Album";
                                                                pl_duration := Some 300;
                                                                selectedTrack := Some 0 |};
                                             tracks := list_tracks sampleAlbum |});
                         client := start "bot" client0; requests := [] |})
    by (vm_compute; reflexivity).
  destruct (search_order sampleTrack_new sampleRequest 1 (storeOf [up 1; up 3]) t0 albumUrl
              None (start "bot" client0) _ H0) as (c & v1 & Hb & _).
  exists c, v1. split; [exact Hb | exact H0].
Defined.

(** *** Playlist durations *)

Lemma fold_duration (l : list Track) (acc : Z) :
  fold_left (fun acc curr => acc + duration curr) l acc = acc + sumZ (map duration l).
Proof.
  revert acc. induction l as [|t l IH]; intros acc.
  - unfold sumZ. simpl. lia.
  - simpl. rewrite IH. unfold sumZ. simpl. lia.
Qed.

Lemma totalDuration_sum (l : list Track) : totalDuration l = sumZ (map duration l).
Proof. unfold totalDuration. rewrite fold_duration. lia. Qed.

Lemma trackLoaded_summed (t : Track) (r : SearchResult) :
  trackLoaded t = Some r -> summed r.
Proof. intros [= <-]. intros H. discriminate H. Qed.

Lemma playlistLoaded_summed (l : TrackList) (r : SearchResult) :
  playlistLoaded l = Some r -> summed r.
Proof. intros [= <-] _. cbn. by rewrite totalDuration_sum. Qed.

Lemma resolved_track_summed (c : Completion Track) (r : SearchResult) :
  (t ← c; Return (trackLoaded t)) = Return (Some r) -> summed r.
Proof.
  destruct c as [t|e]; [|done]. change (Return (trackLoaded t) = Return (Some r) -> summed r).
  intros [= <-]. by apply (trackLoaded_summed t).
Qed.

Lemma resolved_list_summed (c : Completion TrackList) (r : SearchResult) :
  (l ← c; Return (playlistLoaded l)) = Return (Some r) -> summed r.
Proof.
  destruct c as [l|e]; [|done]. change (Return (playlistLoaded l) = Return (Some r) -> summed r).
  intros [= <-]. by apply (playlistLoaded_summed l).
Qed.

Ltac catalog :=
  repeat match goal with
  | |- context [if ?b then _ else _] => destruct b
  end;
  first [ apply resolved_track_summed | apply resolved_list_summed | done ].

Lemma loadFromAppleMusic_summed (v : Vulkava) (query : string) (r : SearchResult) :
  loadFromAppleMusic v query = Return (Some r) -> summed r.
Proof.
  unfold loadFromAppleMusic. destruct (appleMusic v); [|done].
  destruct (String_match _ _ _); [|done]. cbn zeta. catalog.
Qed.

Lemma loadFromDeezer_summed (v : Vulkava) (query : string) (r : SearchResult) :
  loadFromDeezer v query = Return (Some r) -> summed r.
Proof.
  unfold loadFromDeezer. destruct (deezer v); [|done].
  destruct (String_match _ _ _); [|done]. cbn zeta. catalog.
Qed.

Lemma loadFromSpotify_summed (v : Vulkava) (query : string) (r : SearchResult) :
  loadFromSpotify v query = Return (Some r) -> summed r.
Proof.
  unfold loadFromSpotify. destruct (spotify v); [|done].
  destruct (String_match _ _ _); [|done]. cbn zeta. catalog.
Qed.

Section PlaylistFacts.
Variable Track_new : ITrack -> Track.
Variable request : addr -> string -> Completion LoadTracksResult.

Lemma finish_summed (query : string) (res : LoadTracksResult) (v : Vulkava)
    (reqs : list (addr * string)) (f : Found) :
  found (finish Track_new query res v reqs) = Return f ->
  match f with
  | Wrapped r => summed r
  | Unwrapped r => raw_loadType r <> PLAYLIST_LOADED
  end.
Proof.
  unfold finish. destruct (raw_loadType res) eqn:E; cbn; intros [= <-]; try by rewrite E.
  - intros H. discriminate H.
  - intros _. cbn. by rewrite totalDuration_sum.
  - intros H. discriminate H.
Qed.

Lemma load_summed (node : addr) (query : string) (c : list (string * LoadTracksResult))
    (v : Vulkava) (f : Found) :
  found (load Track_new request node query c v) = Return f ->
  match f with
  | Wrapped r => summed r
  | Unwrapped r => raw_loadType r <> PLAYLIST_LOADED
  end.
Proof. unfold load. destruct (request node query); [apply finish_summed | done]. Qed.

(** C9. Whatever [search] returns with load type PLAYLIST_LOADED, from a
    catalog, from the cache or from a node, has as playlist duration the
    sum of the durations of the tracks it returns; the responses returned
    as they came are never playlists. *)
Theorem playlist_duration_is_sum (fuel : nat) (σ : NodeStore) (now : Z) (query : string)
    (source : option string) (v : Vulkava) (step : SearchStep) (f : Found) :
  search Track_new request fuel σ now query source v = Some step ->
  found step = Return f ->
  match f with
  | Wrapped r =>
      loadType r = PLAYLIST_LOADED ->
      pl_duration (playlistInfo r) = Some (sumZ (map duration (tracks r)))
  | Unwrapped r => raw_loadType r <> PLAYLIST_LOADED
  end.
Proof.
  unfold search. destruct (bestNode fuel σ now v) as [[[node|e] v1]|]; [| |done].
  2:{ intros [= <-]. done. }
  unfold orElse.
  destruct (loadFromAppleMusic v1 query) as [[r|]|e] eqn:Ea; cbn.
  - intros [= <-] [= <-]. by eapply loadFromAppleMusic_summed.
  - destruct (loadFromDeezer v1 query) as [[r|]|e] eqn:Ed; cbn.
    + intros [= <-] [= <-]. by eapply loadFromDeezer_summed.
    + destruct (loadFromSpotify v1 query) as [[r|]|e] eqn:Es; cbn.
      * intros [= <-] [= <-]. by eapply loadFromSpotify_summed.
      * destruct (cache v1) as [[|x entries]|].
        -- intros [= <-]. apply load_summed.
        -- destruct (cacheLookup _ _).
           ++ intros [= <-]. apply finish_summed.
           ++ intros [= <-]. apply load_summed.
        -- intros [= <-]. done.
      * intros [= <-]. done.
    + intros [= <-]. done.
  - intros [= <-]. done.
Qed.
End PlaylistFacts.

Lemma playlist_duration_is_sum_witness :
  exists step r,
    search sampleTrack_new sampleRequest 1 (storeOf [up 1; up 3]) t0 "lofi" None
      (start "bot" client0) = Some step
    /\ requests step = [(0%nat, "ytsearch:lofi")]
    /\ found step = Return (Wrapped r)
    /\ pl_duration (raw_playlistInfo samplePlaylist) = Some 999
    /\ pl_duration (playlistInfo r) = Some 300
    /\ pl_duration (playlistInfo r) = Some (sumZ (map duration (tracks r))).
Proof.
  eexists _, _. split; [vm_compute; reflexivity|].
  split; [reflexivity|]. split; [reflexivity|]. split; [reflexivity|]. split; [reflexivity|].
  refine (playlist_duration_is_sum sampleTrack_new sampleRequest 1 (storeOf [up 1; up 3]) t0
            "lofi" None (start "bot" client0) _ (Wrapped _) _ _ _);
    [vm_compute; reflexivity | reflexivity | reflexivity].
Defined.

(** * Further properties *)

(** ** The pool under [bestNode] *)

Lemma sort_insert_perm {A : Type} (cmp : A -> A -> Z) (x : A) (l : list A) :
  sort_insert cmp x l ≡ₚ x :: l.
Proof.
  induction l as [|y l IH]; simpl; [done|].
  destruct (cmp x y <=? 0); [done|]. rewrite IH. apply Permutation_swap.
Qed.

Lemma Array_sort_perm {A : Type} (cmp : A -> A -> Z) (l : list A) :
  Array_sort cmp l ≡ₚ l.
Proof.
  induction l as [|x l IH]; simpl; [done|].
  rewrite sort_insert_perm. by rewrite IH.
Qed.

Lemma bestNode_frame (fuel : nat) (σ : NodeStore) (now : Z) (v v' : Vulkava)
    (c : Completion addr) :
  bestNode fuel σ now v = Some (c, v') ->
  sameSetup v v' /\ cache v' = cache v /\ nodes v' ≡ₚ nodes v.
Proof.
  unfold sameSetup.
  revert v. induction fuel as [|fuel IH]; intros v H; simpl in H; [discriminate|].
  destruct (now <? _).
  - destruct (nodes v) as [|b l] eqn:E;
      [by injection H as <- <-; rewrite E; repeat split|].
    destruct (connected σ b); [by injection H as <- <-; rewrite E; repeat split|].
    apply IH in H. cbn in H. by rewrite E in H.
  - assert (Hp := Array_sort_perm (byPenalties σ) (nodes v)).
    destruct (Array_sort _ _) as [|b l]; [by injection H as <- <-; repeat split|].
    by destruct (connected σ b); cbn in H; injection H as <- <-; repeat split.
Qed.

(** X1. Whatever [bestNode] returns is CONNECTED and a member of the pool;
    on a rescan no member of the pool has a lower penalty. *)
Theorem bestNode_returns_least_connected (fuel : nat) (σ : NodeStore) (now : Z)
    (v v' : Vulkava) (a : addr) :
  bestNode fuel σ now v = Some (Return a, v') ->
  connected σ a = true
  /\ a ∈ nodes v
  /\ (lastNodeSorting v + 30000 <= now -> forall b, b ∈ nodes v -> penalty σ a <= penalty σ b).
Proof.
  intros H. split; [|split].
  - revert v H. induction fuel as [|fuel IH]; intros v; simpl; [discriminate|].
    destruct (now <? _).
    + destruct (nodes v) as [|b l]; [discriminate|].
      destruct (connected σ b) eqn:E; [by intros [= <- <-] | apply IH].
    + destruct (Array_sort _ _) as [|b l]; [discriminate|].
      destruct (connected σ b) eqn:E; simpl; [by intros [= <- <-] | discriminate].
  - revert v H. induction fuel as [|fuel IH]; intros v; simpl; [discriminate|].
    destruct (now <? _).
    + destruct (nodes v) as [|b l] eqn:En; [discriminate|].
      destruct (connected σ b) eqn:E; [intros [= <- <-]; set_solver|].
      intros H. apply IH in H. cbn in H. by rewrite En in H.
    + assert (Hp := Array_sort_perm (byPenalties σ) (nodes v)).
      destruct (Array_sort _ _) as [|b l]; [discriminate|].
      destruct (connected σ b) eqn:E; simpl; [|discriminate].
      intros [= <- <-]. rewrite <- Hp. set_solver.
  - intros Hnow b Hb. destruct fuel as [|fuel]; [discriminate|].
    rewrite bestNode_rescan in H by done. cbn in H.
    destruct (Array_sort (byPenalties σ) (nodes v)) as [|x l] eqn:E; [discriminate|].
    destruct (connected σ x); [|discriminate]. injection H as <- <-.
    destruct (Array_sort_head (penalty σ) _ _ _ E) as (l1 & l2 & Hv & H1 & H2).
    rewrite Hv in Hb. rewrite Forall_forall in H1, H2.
    apply elem_of_app in Hb as [Hb|Hb]; [specialize (H1 b Hb); lia|].
    apply elem_of_cons in Hb as [->|Hb]; [lia | by apply H2].
Qed.

Lemma bestNode_returns_least_connected_witness :
  connected (storeOf [up 5; up 1]) 1%nat = true
  /\ 1%nat ∈ nodes client0
  /\ (lastNodeSorting client0 + 30000 <= t0 ->
      forall b, b ∈ nodes client0 ->
        penalty (storeOf [up 5; up 1]) 1%nat <= penalty (storeOf [up 5; up 1]) b).
Proof.
  apply (bestNode_returns_least_connected 1 (storeOf [up 5; up 1]) t0 client0
           (set_nodes [1%nat; 0%nat] client0) 1%nat).
  reflexivity.
Defined.

(** X2. On a rescan [bestNode] throws nothing but 'No connected nodes!',
    and only when the pool is empty or a member of least penalty is not
    CONNECTED; when the pool has a member and all its members of least
    penalty are CONNECTED, it returns a node. *)
Theorem bestNode_fails_on_least_penalty (fuel : nat) (σ : NodeStore) (now : Z) (v : Vulkava) :
  lastNodeSorting v + 30000 <= now ->
  (forall e v', bestNode (S fuel) σ now v = Some (Throw e, v') ->
     e = NoConnectedNodes
     /\ (nodes v = []
         \/ exists a, a ∈ nodes v /\ connected σ a = false
              /\ forall b, b ∈ nodes v -> penalty σ a <= penalty σ b))
  /\ (nodes v <> [] ->
      (forall a, a ∈ nodes v -> (forall b, b ∈ nodes v -> penalty σ a <= penalty σ b) ->
         connected σ a = true) ->
      exists a v', bestNode (S fuel) σ now v = Some (Return a, v')).
Proof.
  intros Hnow. rewrite bestNode_rescan by done. cbn.
  assert (Hp := Array_sort_perm (byPenalties σ) (nodes v)).
  destruct (Array_sort (byPenalties σ) (nodes v)) as [|x l] eqn:E.
  - assert (nodes v = []) as Hnil by (by apply Permutation_nil_l in Hp).
    split; [|done]. intros e v' [= <- <-]. split; [done | by left].
  - destruct (Array_sort_head (penalty σ) _ _ _ E) as (l1 & l2 & Hv & H1 & H2).
    assert (Hmin : forall b, b ∈ nodes v -> penalty σ x <= penalty σ b).
    { intros b Hb. rewrite Hv in Hb. rewrite Forall_forall in H1, H2.
      apply elem_of_app in Hb as [Hb|Hb]; [specialize (H1 b Hb); lia|].
      apply elem_of_cons in Hb as [->|Hb]; [lia | by apply H2]. }
    assert (Hx : x ∈ nodes v) by (rewrite Hv; set_solver).
    destruct (connected σ x) eqn:Hc.
    + split; [done|]. intros _ _. by exists x, (set_nodes (x :: l) v).
    + split.
      * intros e v' [= <- <-]. split; [done|]. right. by exists x.
      * intros _ Hall. rewrite (Hall x Hx Hmin) in Hc. discriminate Hc.
Qed.

Lemma bestNode_fails_on_least_penalty_witness :
  exists a v', bestNode 1 (storeOf [up 5; up 1]) t0 client0 = Some (Return a, v').
Proof.
  refine (proj2 (bestNode_fails_on_least_penalty 0 (storeOf [up 5; up 1]) t0 client0 _) _ _).
  - vm_compute. discriminate.
  - discriminate.
  - intros a Ha _. unfold client0 in Ha. cbn in Ha.
    apply elem_of_cons in Ha as [->|Ha]; [reflexivity|].
    apply elem_of_cons in Ha as [->|Ha]; [reflexivity|]. by apply elem_of_nil in Ha.
Defined.

(** X3. [bestNode] keeps the members of the pool: the array afterwards is
    a rearrangement of the array before, and after a rescan it is in
    ascending order of penalty; the sessions, the sources, the client id
    and the search cache are as before. *)
Theorem bestNode_rearranges_pool (fuel : nat) (σ : NodeStore) (now : Z) (v v' : Vulkava)
    (c : Completion addr) :
  bestNode fuel σ now v = Some (c, v') ->
  nodes v' ≡ₚ nodes v
  /\ (lastNodeSorting v + 30000 <= now -> ordered (penalty σ) (nodes v'))
  /\ sameSetup v v' /\ cache v' = cache v.
Proof.
  intros H. destruct (bestNode_frame _ _ _ _ _ _ H) as (Hs & Hc & Hp).
  split; [done|]. split; [|done].
  intros Hnow. destruct fuel as [|fuel]; [discriminate|].
  rewrite bestNode_rescan in H by done. cbn in H.
  assert (Ho := Array_sort_ordered (penalty σ) (nodes v)).
  destruct (Array_sort (byKey (penalty σ)) (nodes v)) as [|x l] eqn:E;
    unfold byPenalties in H; rewrite E in H.
  - by injection H as <- <-.
  - by destruct (connected σ x); injection H as <- <-.
Qed.

Lemma bestNode_rearranges_pool_witness :
  nodes (set_nodes [1%nat; 0%nat] client0) ≡ₚ nodes client0
  /\ (lastNodeSorting client0 + 30000 <= t0 ->
      ordered (penalty (storeOf [up 5; up 1])) (nodes (set_nodes [1%nat; 0%nat] client0))).
Proof.
  destruct (bestNode_rearranges_pool 1 (storeOf [up 5; up 1]) t0 client0
              (set_nodes [1%nat; 0%nat] client0) (Return 1%nat) eq_refl) as (H1 & H2 & _).
  split; [exact H1 | exact H2].
Defined.

(** ** The URL patterns *)

Lemma shorter_true (s' s : list ascii) : shorter s' s = true -> (length s' < length s)%nat.
Proof. unfold shorter. by intros H%Nat.ltb_lt. Qed.

(** A match of the matcher is a match of the pattern. *)
Lemma rmatch_sound (r : regex) :
  forall s c k m, rmatch r s c k = Some m ->
    exists w rest c', s = w ++ rest /\ sem r w rest c c' /\ k rest c' = Some m.
Proof.
  induction r as [|f|r1 IH1 r2 IH2|r1 IH1 r2 IH2|r IH|r IH|n r IH|]; intros s c k m; simpl.
  - intros H. exists [], s, c. split; [done|]. split; [constructor | done].
  - destruct s as [|x s]; [discriminate|]. destruct (f x) eqn:Hf; [|discriminate].
    intros H. exists [x], s, c. split; [done|]. split; [by constructor | done].
  - intros H. apply IH1 in H as (w1 & rest1 & c1 & -> & S1 & H).
    apply IH2 in H as (w2 & rest & c2 & -> & S2 & H).
    exists (w1 ++ w2), rest, c2. split; [by rewrite <- app_assoc|].
    split; [by econstructor | done].
  - destruct (rmatch r1 s c k) as [m1|] eqn:E1.
    + intros [= <-]. apply IH1 in E1 as (w & rest & c' & -> & S1 & H).
      exists w, rest, c'. split; [done|]. split; [by apply sem_AltL | done].
    + intros H. apply IH2 in H as (w & rest & c' & -> & S2 & H).
      exists w, rest, c'. split; [done|]. split; [by apply sem_AltR | done].
  - destruct (rmatch r s c _) as [m1|] eqn:E1.
    + intros [= <-]. apply IH in E1 as (w & rest & c' & -> & S1 & H).
      destruct (shorter rest (w ++ rest)); [|discriminate].
      exists w, rest, c'. split; [done|]. split; [by apply sem_OptSome | done].
    + intros H. exists [], s, c. split; [done|]. split; [constructor | done].
  - generalize (length s) at 1. intros n. revert s c.
    induction n as [|n IHn]; intros s c.
    + intros H. exists [], s, c. split; [done|]. split; [constructor | done].
    + destruct (rmatch r s c _) as [m1|] eqn:E1.
      * intros [= <-]. apply IH in E1 as (w1 & rest1 & c1 & -> & S1 & H).
        destruct (shorter rest1 (w1 ++ rest1)); [|discriminate].
        apply IHn in H as (w2 & rest & c2 & -> & S2 & H).
        exists (w1 ++ w2), rest, c2. split; [by rewrite <- app_assoc|].
        split; [by econstructor | done].
      * intros H. exists [], s, c. split; [done|]. split; [constructor | done].
  - intros H. apply IH in H as (w & rest & c' & -> & S1 & H).
    exists w, rest, (<[n := Some (String.string_of_list_ascii w)]> c').
    split; [done|]. split; [by constructor|].
    rewrite length_app in H.
    replace (length w + length rest - length rest)%nat with (length w) in H by lia.
    by rewrite take_app_length in H.
  - destruct s; [|discriminate]. intros H. exists [], [], c.
    split; [done|]. split; [constructor | done].
Qed.

Lemma sem_groupless (r : regex) (w rest : list ascii) (c c' : Captures) :
  sem r w rest c c' -> groupless r = true -> c' = c.
Proof.
  induction 1; simpl; intros G; try done.
  - apply andb_true_iff in G as [G1 G2]. rewrite IHsem2, IHsem1; done.
  - apply andb_true_iff in G as [G1 G2]. by apply IHsem.
  - apply andb_true_iff in G as [G1 G2]. by apply IHsem.
  - by apply IHsem.
  - rewrite IHsem2, IHsem1; done.
Qed.

Lemma sem_chr (a : ascii) (w rest : list ascii) (c c' : Captures) :
  sem (chr a) w rest c c' -> w = [a] /\ c' = c.
Proof.
  unfold chr. inversion 1; subst. split; [|done]. f_equal.
  symmetry. by apply Ascii.eqb_eq.
Qed.

(** A literal accepts its own letters and nothing else. *)
Lemma sem_lit (s : string) (w rest : list ascii) (c c' : Captures) :
  sem (lit s) w rest c c' -> w = letters s /\ c' = c.
Proof.
  revert w rest c c'. induction s as [|a s IH]; intros w rest c c'; simpl.
  - inversion 1; by subst.
  - destruct s as [|b s].
    + intros H. by apply sem_chr in H.
    + intros H. change (sem (Seq (chr a) (lit (String b s))) w rest c c') in H.
      inversion H as [| |? ? w1 w2 ? ? c1 ? H1 H2| | | | | | | |]; subst.
      apply sem_chr in H1 as [-> ->]. apply IH in H2 as [-> ->]. done.
Qed.

Lemma sem_Seq_inv (r1 r2 : regex) (w rest : list ascii) (c c'' : Captures) :
  sem (Seq r1 r2) w rest c c'' ->
  exists w1 w2 c', w = w1 ++ w2 /\ sem r1 w1 (w2 ++ rest) c c' /\ sem r2 w2 rest c' c''.
Proof. inversion 1; subst. by eexists _, _, _. Qed.

Lemma sem_Alt_inv (r1 r2 : regex) (w rest : list ascii) (c c' : Captures) :
  sem (Alt r1 r2) w rest c c' -> sem r1 w rest c c' \/ sem r2 w rest c c'.
Proof. inversion 1; subst; auto. Qed.

Lemma sem_Opt_inv (r : regex) (w rest : list ascii) (c c' : Captures) :
  sem (Opt r) w rest c c' -> (w = [] /\ c' = c) \/ sem r w rest c c'.
Proof. inversion 1; subst; auto. Qed.

Lemma sem_Group_inv (n : nat) (r : regex) (w rest : list ascii) (c c' : Captures) :
  sem (Group n r) w rest c c' ->
  exists c0, sem r w rest c c0 /\ c' = <[n := Some (String.string_of_list_ascii w)]> c0.
Proof. inversion 1; subst. by eexists. Qed.

Lemma sem_Sym_inv (f : ascii -> bool) (w rest : list ascii) (c c' : Captures) :
  sem (Sym f) w rest c c' -> exists a, w = [a] /\ f a = true /\ c' = c.
Proof. inversion 1; subst. by eexists. Qed.

Lemma sem_Eps_inv (w rest : list ascii) (c c' : Captures) :
  sem Eps w rest c c' -> w = [] /\ c' = c.
Proof. by inversion 1. Qed.

Ltac sem_inv :=
  repeat match goal with
  | H : sem (lit _) _ _ _ _ |- _ => apply sem_lit in H; destruct H as [? ?]; subst
  | H : sem (plus _) _ _ _ _ |- _ =>
      pose proof (sem_groupless _ _ _ _ _ H eq_refl); subst; clear H
  | H : sem (Star _) _ _ _ _ |- _ =>
      pose proof (sem_groupless _ _ _ _ _ H eq_refl); subst; clear H
  | H : sem Eol _ _ _ _ |- _ =>
      pose proof (sem_groupless _ _ _ _ _ H eq_refl); subst; clear H
  | H : sem (Seq _ _) _ _ _ _ |- _ =>
      apply sem_Seq_inv in H; destruct H as (? & ? & ? & ? & ? & ?); subst
  | H : sem (Alt _ _) _ _ _ _ |- _ => apply sem_Alt_inv in H; destruct H as [H | H]
  | H : sem (Opt _) _ _ _ _ |- _ =>
      apply sem_Opt_inv in H; destruct H as [[? ?] | H]; subst
  | H : sem (Group _ _) _ _ _ _ |- _ =>
      apply sem_Group_inv in H; destruct H as (? & ? & ?); subst
  | H : sem (Sym _) _ _ _ _ |- _ =>
      apply sem_Sym_inv in H; destruct H as (? & ? & ? & ?); subst
  | H : sem Eps _ _ _ _ |- _ => apply sem_Eps_inv in H; destruct H as [? ?]; subst
  end.

Ltac starts_with p :=
  exists p; eexists; split;
  [ vm_compute; set_solver
  | match goal with Hq : letters _ = _ |- _ => rewrite Hq end; cbn; reflexivity ].

Lemma String_match_sem (groups : nat) (r : regex) (q : string) (m : Captures) :
  String_match groups r q = Some m ->
  exists w rest c,
    letters q = w ++ rest /\ sem r w rest (replicate (S groups) None) c
    /\ m = <[0%nat := Some (String.string_of_list_ascii w)]> c.
Proof.
  unfold String_match. intros H.
  apply rmatch_sound in H as (w & rest & c' & Hq & Hs & [= <-]).
  apply sem_Group_inv in Hs as (c0 & Hs & ->). by exists w, rest, c0.
Qed.

(** Where a match of the Spotify pattern starts, and what its first group
    holds. *)
Lemma spotify_shape (q : string) (m : Captures) :
  String_match 2 SPOTIFY_REGEX q = Some m ->
  startsWithOneOf spotifyPrefixes q
  /\ (group m 1 = Some "album" \/ group m 1 = Some "playlist" \/ group m 1 = Some "track").
Proof.
  intros H. apply String_match_sem in H as (w & rest & c & Hq & Hs & ->).
  unfold SPOTIFY_REGEX in Hs. cbn [seqs alts] in Hs. sem_inv.
  all: split; [first [starts_with "https://open.spotify.com/"
                                 | starts_with "spotify:"]
              | cbn; auto].
Qed.

Lemma deezer_shape (q : string) (m : Captures) :
  String_match 2 DEEZER_REGEX q = Some m ->
  startsWithOneOf deezerPrefixes q
  /\ (group m 1 = Some "track" \/ group m 1 = Some "album" \/ group m 1 = Some "playlist").
Proof.
  intros H. apply String_match_sem in H as (w & rest & c & Hq & Hs & ->).
  unfold DEEZER_REGEX in Hs. cbn [seqs alts] in Hs. sem_inv.
  all: split; [first [ starts_with "deezer.com/" | starts_with "www.deezer.com/"
                     | starts_with "http://deezer.com/" | starts_with "http://www.deezer.com/"
                     | starts_with "https://deezer.com/"
                     | starts_with "https://www.deezer.com/" ]
              | cbn; auto].
Qed.

Lemma apple_shape (q : string) (m : Captures) :
  String_match 4 APPLE_MUSIC_REGEX q = Some m ->
  startsWithOneOf applePrefixes q
  /\ (group m 2 = Some "album" \/ group m 2 = Some "playlist"
      \/ group m 2 = Some "artist" \/ group m 2 = Some "music-video").
Proof.
  intros H. apply String_match_sem in H as (w & rest & c & Hq & Hs & ->).
  unfold APPLE_MUSIC_REGEX in Hs. cbn [seqs alts] in Hs. sem_inv.
  all: split; [first [ starts_with "apple.com/" | starts_with "music.apple.com/"
                     | starts_with "http://apple.com/" | starts_with "http://music.apple.com/"
                     | starts_with "https://apple.com/"
                     | starts_with "https://music.apple.com/" ]
              | cbn; auto 6].
Qed.

Ltac which_prefix H :=
  repeat (first [ apply elem_of_cons in H as [-> | H] | by apply elem_of_nil in H ]).

Lemma prefixes_clash (A B : list string) (q : string) :
  startsWithOneOf A q -> startsWithOneOf B q ->
  exists a b ta tb, a ∈ A /\ b ∈ B /\ letters a ++ ta = letters b ++ tb.
Proof.
  intros (a & ta & Ha & Ea) (b & tb & Hb & Eb).
  exists a, b, ta, tb. split; [done|]. split; [done|]. by rewrite <- Ea, <- Eb.
Qed.

(** X4. No query matches two of the three URL patterns, so the order in
    which [search] asks Apple Music, Deezer and Spotify never decides which
    of them takes a query. *)
Theorem patterns_are_disjoint (q : string) :
  (is_Some (String_match 4 APPLE_MUSIC_REGEX q) ->
   String_match 2 DEEZER_REGEX q = None /\ String_match 2 SPOTIFY_REGEX q = None)
  /\ (is_Some (String_match 2 DEEZER_REGEX q) -> String_match 2 SPOTIFY_REGEX q = None).
Proof.
  assert (AD : startsWithOneOf applePrefixes q -> startsWithOneOf deezerPrefixes q -> False).
  { intros HA HD. destruct (prefixes_clash _ _ _ HA HD) as (a & b & ta & tb & Ha & Hb & E).
    vm_compute in Ha, Hb. which_prefix Ha; which_prefix Hb; cbn in E; discriminate E. }
  assert (AS : startsWithOneOf applePrefixes q -> startsWithOneOf spotifyPrefixes q -> False).
  { intros HA HD. destruct (prefixes_clash _ _ _ HA HD) as (a & b & ta & tb & Ha & Hb & E).
    vm_compute in Ha, Hb. which_prefix Ha; which_prefix Hb; cbn in E; discriminate E. }
  assert (DS : startsWithOneOf deezerPrefixes q -> startsWithOneOf spotifyPrefixes q -> False).
  { intros HA HD. destruct (prefixes_clash _ _ _ HA HD) as (a & b & ta & tb & Ha & Hb & E).
    vm_compute in Ha, Hb. which_prefix Ha; which_prefix Hb; cbn in E; discriminate E. }
  split.
  - intros [ma Ha]. apply apple_shape in Ha as [Ha _]. split.
    + destruct (String_match 2 DEEZER_REGEX q) as [md|] eqn:Hd; [|done].
      apply deezer_shape in Hd as [Hd _]. by destruct (AD Ha Hd).
    + destruct (String_match 2 SPOTIFY_REGEX q) as [ms|] eqn:Hs; [|done].
      apply spotify_shape in Hs as [Hs _]. by destruct (AS Ha Hs).
  - intros [md Hd]. apply deezer_shape in Hd as [Hd _].
    destruct (String_match 2 SPOTIFY_REGEX q) as [ms|] eqn:Hs; [|done].
    apply spotify_shape in Hs as [Hs _]. by destruct (DS Hd Hs).
Qed.

Lemma patterns_are_disjoint_witness :
  is_Some (String_match 4 APPLE_MUSIC_REGEX albumUrl)
  /\ String_match 2 DEEZER_REGEX albumUrl = None
  /\ String_match 2 SPOTIFY_REGEX albumUrl = None.
Proof.
  assert (H : is_Some (String_match 4 APPLE_MUSIC_REGEX albumUrl)) by (vm_compute; eauto).
  split; [exact H|]. exact (proj1 (patterns_are_disjoint albumUrl) H).
Defined.

(** ** The catalog loaders *)

Lemma awaited_track_not_null (c : Completion Track) :
  (t ← c; Return (trackLoaded t)) <> Return None.
Proof. by destruct c. Qed.

Lemma awaited_list_not_null (c : Completion TrackList) :
  (l ← c; Return (playlistLoaded l)) <> Return None.
Proof. by destruct c. Qed.

Ltac kinds H :=
  repeat (destruct H as [H | H]); rewrite H; cbn [groupIs option_string_eqb];
  repeat match goal with
  | |- context [String.eqb ?a ?b] =>
      let e := eval vm_compute in (String.eqb a b) in
      change (String.eqb a b) with e; cbv iota
  end.

(** X5. A loader returns null exactly when its source is disabled or the
    query does not match its pattern: a source that is enabled answers, or
    throws, for every query its pattern matches. *)
Theorem loaders_own_their_urls (v : Vulkava) (q : string) :
  (loadFromAppleMusic v q = Return None <->
     appleMusic v = None \/ String_match 4 APPLE_MUSIC_REGEX q = None)
  /\ (loadFromDeezer v q = Return None <->
        deezer v = None \/ String_match 2 DEEZER_REGEX q = None)
  /\ (loadFromSpotify v q = Return None <->
        spotify v = None \/ String_match 2 SPOTIFY_REGEX q = None).
Proof.
  split; [|split].
  - unfold loadFromAppleMusic. destruct (appleMusic v) as [am|]; [|split; auto].
    destruct (String_match 4 APPLE_MUSIC_REGEX q) as [m|] eqn:Hm; [|split; auto].
    split; [|by intros [|]]. intros H. exfalso. revert H.
    apply apple_shape in Hm as [_ Hk]. cbn zeta.
    kinds Hk;
      try destruct (truthy (group m 4));
      first [apply awaited_track_not_null | apply awaited_list_not_null].
  - unfold loadFromDeezer. destruct (deezer v) as [dz|]; [|split; auto].
    destruct (String_match 2 DEEZER_REGEX q) as [m|] eqn:Hm; [|split; auto].
    split; [|by intros [|]]. intros H. exfalso. revert H.
    apply deezer_shape in Hm as [_ Hk]. cbn zeta.
    kinds Hk; first [apply awaited_track_not_null | apply awaited_list_not_null].
  - unfold loadFromSpotify. destruct (spotify v) as [sp|]; [|split; auto].
    destruct (String_match 2 SPOTIFY_REGEX q) as [m|] eqn:Hm; [|split; auto].
    split; [|by intros [|]]. intros H. exfalso. revert H.
    apply spotify_shape in Hm as [_ Hk]. cbn zeta.
    kinds Hk; first [apply awaited_track_not_null | apply awaited_list_not_null].
Qed.

(** X6. [loadFromSpotify] never asks for an artist's top tracks: the
    pattern lets only albums, playlists and tracks through, so whatever
    [getArtistTopTracks] would do, the result is the same. *)
Theorem spotify_artist_branch_is_dead (v : Vulkava) (sp : Spotify.t) (q : string)
    (f : option string -> Completion TrackList) :
  loadFromSpotify (set_spotify (Some (withArtistTopTracks f sp)) v) q
  = loadFromSpotify (set_spotify (Some sp) v) q.
Proof.
  unfold loadFromSpotify. cbn [spotify set_spotify].
  destruct (String_match 2 SPOTIFY_REGEX q) as [m|] eqn:Hm; [|done].
  apply spotify_shape in Hm as [_ Hk]. cbn zeta. kinds Hk; reflexivity.
Qed.

(** ** The search cache *)

Lemma loaders_sameSetup (v w : Vulkava) (q : string) :
  sameSetup v w ->
  loadFromAppleMusic w q = loadFromAppleMusic v q
  /\ loadFromDeezer w q = loadFromDeezer v q
  /\ loadFromSpotify w q = loadFromSpotify v q.
Proof.
  intros (_ & _ & Ha & Hd & Hs & _).
  unfold loadFromAppleMusic, loadFromDeezer, loadFromSpotify. by rewrite Ha, Hd, Hs.
Qed.

Lemma sameSetup_trans (u v w : Vulkava) : sameSetup u v -> sameSetup v w -> sameSetup u w.
Proof.
  unfold sameSetup. intros (?&?&?&?&?&?) (?&?&?&?&?&?). repeat split; congruence.
Qed.

Lemma cacheLookup_app (q : string) (c : list (string * LoadTracksResult))
    (x : string * LoadTracksResult) :
  cacheLookup q (c ++ [x])
  = if String.eqb x.1 q then Some x.2 else cacheLookup q c.
Proof. unfold cacheLookup. by rewrite fold_left_app. Qed.

Lemma cacheLookup_None (q : string) (c : list (string * LoadTracksResult)) :
  cacheLookup q c = None <-> q ∉ map fst c.
Proof.
  induction c as [|x c IH] using rev_ind.
  { split; [intros _ H; by apply elem_of_nil in H | done]. }
  rewrite cacheLookup_app, map_app. cbn [map]. rewrite elem_of_app, list_elem_of_singleton.
  destruct (String.eqb_spec x.1 q) as [->|Hne].
  - split; [done|]. intros H. destruct H. by right.
  - rewrite IH. split; [intros H [H'|H']; [by apply H | by apply Hne] | intros H H'; apply H; by left].
Qed.

Lemma writeFirst_keys (q : string) (f : LoadTracksResult -> LoadTracksResult)
    (c : list (string * LoadTracksResult)) :
  map fst (writeFirst q f c) = map fst c.
Proof.
  induction c as [|x c IH]; [done|]. cbn. destruct (String.eqb x.1 q); cbn; [done|].
  by rewrite IH.
Qed.

Lemma writeLast_keys (q : string) (f : LoadTracksResult -> LoadTracksResult)
    (c : list (string * LoadTracksResult)) :
  map fst (writeLast q f c) = map fst c.
Proof.
  unfold writeLast. rewrite map_rev, writeFirst_keys, <- map_rev. by rewrite rev_involutive.
Qed.

Lemma writeLast_app (q : string) (f : LoadTracksResult -> LoadTracksResult)
    (c : list (string * LoadTracksResult)) (r : LoadTracksResult) :
  writeLast q f (c ++ [(q, r)]) = c ++ [(q, f r)].
Proof.
  unfold writeLast. rewrite rev_app_distr. cbn. rewrite String.eqb_refl. cbn.
  by rewrite rev_involutive.
Qed.

Section CacheFacts.
Variable Track_new : ITrack -> Track.
Variable request : addr -> string -> Completion LoadTracksResult.

Lemma finish_frame (q : string) (res : LoadTracksResult) (v : Vulkava)
    (reqs : list (addr * string)) :
  sameSetup v (client (finish Track_new q res v reqs))
  /\ nodes (client (finish Track_new q res v reqs)) = nodes v
  /\ lastNodeSorting (client (finish Track_new q res v reqs)) = lastNodeSorting v
  /\ cacheKeys (client (finish Track_new q res v reqs)) = cacheKeys v.
Proof.
  unfold finish, sameSetup, cacheKeys. destruct (raw_loadType res); cbn; repeat split.
  destruct (cache v) as [c|]; cbn; [|done]. apply writeLast_keys.
Qed.

Lemma load_frame (node : addr) (q : string) (c : list (string * LoadTracksResult))
    (v : Vulkava) :
  sameSetup v (client (load Track_new request node q c v))
  /\ nodes (client (load Track_new request node q c v)) = nodes v
  /\ lastNodeSorting (client (load Track_new request node q c v)) = lastNodeSorting v.
Proof.
  unfold load. destruct (request node q) as [res|e]; [|by repeat split].
  destruct (finish_frame q res (set_cache (Some (c ++ [(q, res)])) v) [(node, q)])
    as (H1 & H2 & H3 & _).
  split; [|by rewrite H2, H3]. eapply sameSetup_trans; [|exact H1]. by repeat split.
Qed.

(** How [search] goes once a node is selected and no source takes the
    query. *)
Lemma search_declined (fuel : nat) (σ : NodeStore) (now : Z) (query : string)
    (source : option string) (v v1 : Vulkava) (node : addr)
    (c : list (string * LoadTracksResult)) :
  bestNode fuel σ now v = Some (Return node, v1) ->
  loadFromAppleMusic v1 query = Return None ->
  loadFromDeezer v1 query = Return None ->
  loadFromSpotify v1 query = Return None ->
  cache v1 = Some c ->
  search Track_new request fuel σ now query source v
  = Some (let q := identifier (default (defaultSearchSource v1) source) query in
          match cacheLookup q c with
          | Some res => finish Track_new q res v1 []
          | None => load Track_new request node q c v1
          end).
Proof.
  intros Hb Ha Hd Hs Hc. unfold search. rewrite Hb. unfold orElse.
  rewrite Ha. cbn. rewrite Hd. cbn. rewrite Hs. cbn. rewrite Hc.
  destruct c as [|x c]; [done|]. by destruct (cacheLookup _ _).
Qed.

(** What a [search] that sent a request went through. *)
Lemma search_requested (fuel : nat) (σ : NodeStore) (now : Z) (query : string)
    (source : option string) (v : Vulkava) (step : SearchStep) :
  search Track_new request fuel σ now query source v = Some step ->
  requests step <> [] ->
  exists node v1 c,
    bestNode fuel σ now v = Some (Return node, v1)
    /\ loadFromAppleMusic v1 query = Return None
    /\ loadFromDeezer v1 query = Return None
    /\ loadFromSpotify v1 query = Return None
    /\ cache v1 = Some c
    /\ cacheLookup (identifier (default (defaultSearchSource v1) source) query) c = None
    /\ step = load Track_new request node
                (identifier (default (defaultSearchSource v1) source) query) c v1.
Proof.
  unfold search. destruct (bestNode fuel σ now v) as [[[node|e] v1]|] eqn:Hb; [| |done].
  2:{ intros [= <-] H. exfalso. apply H. reflexivity. }
  unfold orElse.
  destruct (loadFromAppleMusic v1 query) as [[r|]|e] eqn:Ha; cbn;
    try (intros [= <-] H; exfalso; apply H; reflexivity).
  destruct (loadFromDeezer v1 query) as [[r|]|e] eqn:Hd; cbn;
    try (intros [= <-] H; exfalso; apply H; reflexivity).
  destruct (loadFromSpotify v1 query) as [[r|]|e] eqn:Hs; cbn;
    try (intros [= <-] H; exfalso; apply H; reflexivity).
  destruct (cache v1) as [[|x c]|] eqn:Hc;
    try (intros [= <-] H; exfalso; apply H; reflexivity).
  - intros [= <-] _. exists node, v1, []. by repeat split.
  - destruct (cacheLookup _ (x :: c)) as [res|] eqn:E.
    + intros [= <-] H. rewrite requests_finish in H. exfalso. by apply H.
    + intros [= <-] _. exists node, v1, (x :: c). by repeat split.
Qed.

(** X7. [search] touches nothing of the client but the order of the node
    array and the search cache: the sessions, the sources, the client id
    and the default source are as before, and the pool keeps its members. *)
Theorem search_frame (fuel : nat) (σ : NodeStore) (now : Z) (query : string)
    (source : option string) (v : Vulkava) (step : SearchStep) :
  search Track_new request fuel σ now query source v = Some step ->
  sameSetup v (client step) /\ nodes (client step) ≡ₚ nodes v.
Proof.
  unfold search. destruct (bestNode fuel σ now v) as [[[node|e] v1]|] eqn:Hb; [| |done].
  2:{ intros [= <-]. destruct (bestNode_frame _ _ _ _ _ _ Hb) as (H1 & _ & H3). done. }
  destruct (bestNode_frame _ _ _ _ _ _ Hb) as (H1 & _ & H3).
  assert (Hfin : forall q res reqs,
            sameSetup v (client (finish Track_new q res v1 reqs))
            /\ nodes (client (finish Track_new q res v1 reqs)) ≡ₚ nodes v).
  { intros q res reqs. destruct (finish_frame q res v1 reqs) as (F1 & F2 & _).
    split; [by eapply sameSetup_trans | by rewrite F2]. }
  assert (Hload : forall q c,
            sameSetup v (client (load Track_new request node q c v1))
            /\ nodes (client (load Track_new request node q c v1)) ≡ₚ nodes v).
  { intros q c. destruct (load_frame node q c v1) as (F1 & F2 & _).
    split; [by eapply sameSetup_trans | by rewrite F2]. }
  destruct (orElse _ _) as [[r|]|e]; try by intros [= <-].
  destruct (cache v1) as [[|x c]|]; try by intros [= <-].
  destruct (cacheLookup _ _); by intros [= <-].
Qed.
(** The entry [finish] leaves in the cache for a response. *)
Lemma finish_cached (q : string) (res : LoadTracksResult)
    (c : list (string * LoadTracksResult)) (v : Vulkava) (reqs : list (addr * string)) :
  cache v = Some (c ++ [(q, res)]) ->
  exists res',
    cache (client (finish Track_new q res v reqs)) = Some (c ++ [(q, res')])
    /\ forall w reqs',
         found (finish Track_new q res' w reqs') = found (finish Track_new q res v reqs)
         /\ (cache w = Some (c ++ [(q, res')]) ->
             cache (client (finish Track_new q res' w reqs')) = cache w).
Proof.
  intros Hc. unfold finish.
  destruct (raw_loadType res) eqn:E.
  1,3,4,5: (exists res; split; [by cbn|]; intros w reqs'; rewrite E; by split).
  exists (set_raw_duration (totalDuration (map Track_new (raw_tracks res))) res).
  cbn. rewrite Hc. cbn. rewrite writeLast_app. split; [done|].
  intros w reqs'. rewrite E. cbn. split; [done|].
  intros Hw. rewrite Hw. cbn. by rewrite writeLast_app.
Qed.

(** X8. A response loaded from a node is served from the cache afterwards:
    when a search has sent a request and returned, the same search on the
    client it left, at any later time, sends no request, returns the same
    result and leaves the cache as it is, unless no node can be selected. *)
Theorem search_again_hits_cache (fuel fuel' : nat) (σ σ' : NodeStore) (now now' : Z)
    (query : string) (source : option string) (v : Vulkava) (step step' : SearchStep)
    (f : Found) :
  search Track_new request fuel σ now query source v = Some step ->
  requests step <> [] -> found step = Return f ->
  search Track_new request fuel' σ' now' query source (client step) = Some step' ->
  (exists e, found step' = Throw e /\ requests step' = []
             /\ exists u, bestNode fuel' σ' now' (client step) = Some (Throw e, u))
  \/ (found step' = Return f /\ requests step' = []
      /\ cache (client step') = cache (client step)).
Proof.
  intros H Hreq Hf H'.
  destruct (search_requested _ _ _ _ _ _ _ H Hreq)
    as (node & v1 & c & Hb & Ha & Hd & Hs & Hc & Hmiss & ->).
  set (q := identifier (default (defaultSearchSource v1) source) query) in *.
  unfold load in *. destruct (request node q) as [res|e]; [|discriminate Hf].
  destruct (finish_cached q res c (set_cache (Some (c ++ [(q, res)])) v1) [(node, q)] eq_refl)
    as (res' & Hcache & Hagain).
  destruct (finish_frame q res (set_cache (Some (c ++ [(q, res)])) v1) [(node, q)])
    as (Hsame & _).
  set (u := client (finish Track_new q res (set_cache (Some (c ++ [(q, res)])) v1) [(node, q)]))
    in *.
  assert (Hsame1 : sameSetup v1 u) by (eapply sameSetup_trans; [|exact Hsame]; by repeat split).
  destruct (bestNode fuel' σ' now' u) as [[[node'|e] u1]|] eqn:Hb'.
  - right. destruct (bestNode_frame _ _ _ _ _ _ Hb') as (Hsame' & Hcache' & _).
    assert (Hsame2 : sameSetup v1 u1) by (by eapply sameSetup_trans).
    destruct (loaders_sameSetup v1 u1 query Hsame2) as (La & Ld & Ls).
    rewrite (search_declined fuel' σ' now' query source u u1 node' (c ++ [(q, res')])) in H';
      [| done | congruence | congruence | congruence | congruence].
    assert (Hq : identifier (default (defaultSearchSource u1) source) query = q).
    { subst q. destruct Hsame2 as (_ & -> & _). done. }
    cbn zeta in H'. rewrite Hq in H'.
    rewrite cacheLookup_app in H'. cbn [fst snd] in H'. rewrite String.eqb_refl in H'.
    injection H' as <-. destruct (Hagain u1 []) as [Hfound Hkeep].
    rewrite Hfound, Hf, requests_finish. split; [done|]. split; [done|].
    rewrite Hkeep by congruence. done.
  - left. unfold search in H'. rewrite Hb' in H'. injection H' as <-.
    exists e. split; [done|]. split; [done|]. by exists u1.
  - unfold search in H'. by rewrite Hb' in H'.
Qed.

(** X9. [search] adds an entry to the cache only for a key it does not
    hold: the keys stay distinct, the keys held before stay, in their
    order, and at most one is added, at the end. *)
Theorem search_keeps_keys_distinct (fuel : nat) (σ : NodeStore) (now : Z) (query : string)
    (source : option string) (v : Vulkava) (step : SearchStep) :
  search Track_new request fuel σ now query source v = Some step ->
  NoDup (cacheKeys v) ->
  NoDup (cacheKeys (client step))
  /\ (cacheKeys (client step) = cacheKeys v
      \/ exists q, (q ∉ cacheKeys v) /\ cacheKeys (client step) = cacheKeys v ++ [q]).
Proof.
  intros H Hnd.
  assert (Hgoal : cacheKeys (client step) = cacheKeys v
                  \/ exists q, (q ∉ cacheKeys v) /\ cacheKeys (client step) = cacheKeys v ++ [q]).
  { revert H. unfold search.
    destruct (bestNode fuel σ now v) as [[[node|e] v1]|] eqn:Hb; [| |done].
    2:{ intros [= <-]. left. destruct (bestNode_frame _ _ _ _ _ _ Hb) as (_ & Hc & _).
        unfold cacheKeys. cbn. by rewrite Hc. }
    destruct (bestNode_frame _ _ _ _ _ _ Hb) as (_ & Hc & _).
    assert (Hk : cacheKeys v1 = cacheKeys v) by (unfold cacheKeys; by rewrite Hc).
    assert (Hload : forall q c, cache v1 = Some c -> cacheLookup q c = None ->
              cacheKeys (client (load Track_new request node q c v1)) = cacheKeys v
              \/ exists q', (q' ∉ cacheKeys v)
                   /\ cacheKeys (client (load Track_new request node q c v1))
                      = cacheKeys v ++ [q']).
    { intros q c Hc1 Hmiss. unfold load. destruct (request node q) as [res|e]; [|by left].
      right. exists q.
      destruct (finish_frame q res (set_cache (Some (c ++ [(q, res)])) v1) [(node, q)])
        as (_ & _ & _ & Hkeys).
      rewrite Hkeys, <- Hk. unfold cacheKeys. cbn. rewrite Hc1, map_app. cbn.
      split; [by apply cacheLookup_None | done]. }
    destruct (orElse _ _) as [[r|]|e]; try (intros [= <-]; by left).
    destruct (cache v1) as [[|x c]|] eqn:Hc1; try (intros [= <-]; by left).
    - intros [= <-]. by apply Hload.
    - destruct (cacheLookup _ (x :: c)) as [res|] eqn:E.
      + intros [= <-]. left.
        destruct (finish_frame
                    (identifier (default (defaultSearchSource v1) source) query)
                    res v1 []) as (_ & _ & _ & Hkeys).
        by rewrite Hkeys.
      + intros [= <-]. by apply Hload. }
  split; [|exact Hgoal].
  destruct Hgoal as [-> | (q & Hq & ->)]; [done|].
  apply NoDup_app. split; [done|]. split; [|apply NoDup_singleton].
  intros x Hx Hx'. apply list_elem_of_singleton in Hx' as ->. done.
Qed.

(** X10. A [search] that throws leaves the cache as it was: a request that
    a node rejects is not remembered, and the next search asks again. *)
Theorem search_throw_leaves_cache (fuel : nat) (σ : NodeStore) (now : Z) (query : string)
    (source : option string) (v : Vulkava) (step : SearchStep) (e : Error) :
  search Track_new request fuel σ now query source v = Some step ->
  found step = Throw e ->
  cache (client step) = cache v.
Proof.
  unfold search. destruct (bestNode fuel σ now v) as [[[node|e'] v1]|] eqn:Hb; [| |done].
  2:{ intros [= <-] _. by destruct (bestNode_frame _ _ _ _ _ _ Hb) as (_ & Hc & _). }
  destruct (bestNode_frame _ _ _ _ _ _ Hb) as (_ & Hc & _).
  assert (Hfin : forall q res w reqs, found (finish Track_new q res w reqs) <> Throw e).
  { intros q res w reqs. unfold finish. by destruct (raw_loadType res). }
  assert (Hload : forall q c, found (load Track_new request node q c v1) = Throw e ->
            cache (client (load Track_new request node q c v1)) = cache v).
  { intros q c. unfold load. destruct (request node q) as [res|e'']; [|done].
    intros H. by apply Hfin in H. }
  destruct (orElse _ _) as [[r|]|e''];
    try (intros [= <-] Hf; cbn in *; first [discriminate Hf | exact Hc]).
  destruct (cache v1) as [[|x c]|] eqn:Hc1;
    try (intros [= <-] Hf; cbn in *; first [discriminate Hf | congruence]).
  - intros [= <-]. apply Hload.
  - destruct (cacheLookup _ (x :: c)) as [res|] eqn:E.
    + intros [= <-] H. by apply Hfin in H.
    + intros [= <-]. apply Hload.
Qed.

(** X11. On a client that was not started the cache is undefined:
    [search] sends no request, and a query that no source takes throws a
    TypeError once a node is selected. *)
Theorem search_before_start (fuel : nat) (σ : NodeStore) (now : Z) (query : string)
    (source : option string) (v : Vulkava) (step : SearchStep) :
  search Track_new request fuel σ now query source v = Some step ->
  cache v = None ->
  requests step = [] /\ cache (client step) = None
  /\ (forall node v1, bestNode fuel σ now v = Some (Return node, v1) ->
       loadFromAppleMusic v query = Return None ->
       loadFromDeezer v query = Return None ->
       loadFromSpotify v query = Return None ->
       found step = Throw TypeError).
Proof.
  intros H Hnone. revert H. unfold search.
  destruct (bestNode fuel σ now v) as [[[node|e'] v1]|] eqn:Hb; [| |done].
  2:{ intros [= <-]. destruct (bestNode_frame _ _ _ _ _ _ Hb) as (_ & Hc & _).
      cbn. rewrite Hc. by repeat split. }
  destruct (bestNode_frame _ _ _ _ _ _ Hb) as (Hsame & Hc & _).
  destruct (loaders_sameSetup v v1 query Hsame) as (La & Ld & Ls).
  rewrite Hnone in Hc. unfold orElse. rewrite La, Ld, Ls, Hc.
  destruct (loadFromAppleMusic v query) as [[r|]|e]; cbn;
    try (intros [= <-]; cbn; repeat split; try done; intros ? ? _ ?; done).
  destruct (loadFromDeezer v query) as [[r|]|e]; cbn;
    try (intros [= <-]; cbn; repeat split; try done; intros ? ? _ _ ?; done).
  destruct (loadFromSpotify v query) as [[r|]|e]; cbn;
    try (intros [= <-]; cbn; repeat split; try done; intros ? ? _ _ _ ?; done).
Qed.
End CacheFacts.

Lemma search_frame_witness :
  exists step,
    search sampleTrack_new sampleRequest 1 (storeOf [up 5; up 1]) t0 "lofi" None
      (start "bot" client0) = Some step
    /\ sameSetup (start "bot" client0) (client step)
    /\ nodes (client step) ≡ₚ nodes (start "bot" client0).
Proof.
  eexists. split; [vm_compute; reflexivity|].
  eapply (search_frame sampleTrack_new sampleRequest 1 (storeOf [up 5; up 1]) t0 "lofi" None).
  vm_compute. reflexivity.
Defined.

Lemma search_again_hits_cache_witness :
  exists step step' f,
    search sampleTrack_new sampleRequest 1 (storeOf [up 1; up 3]) t0 "lofi" None
      (start "bot" client0) = Some step
    /\ requests step = [(0%nat, "ytsearch:lofi")]
    /\ found step = Return f
    /\ search sampleTrack_new sampleRequest 1 (storeOf [up 4; up 3]) (t0 + 5000) "lofi" None
         (client step) = Some step'
    /\ found step' = Return f /\ requests step' = [].
Proof.
  eexists _, _, _. split; [vm_compute; reflexivity|]. split; [reflexivity|].
  split; [reflexivity|]. split; [vm_compute; reflexivity|].
  edestruct (search_again_hits_cache sampleTrack_new sampleRequest 1 1
               (storeOf [up 1; up 3]) (storeOf [up 4; up 3]) t0 (t0 + 5000) "lofi" None
               (start "bot" client0)) as [(e & He & _) | (H1 & H2 & _)].
  - vm_compute. reflexivity.
  - discriminate.
  - reflexivity.
  - vm_compute. reflexivity.
  - discriminate He.
  - split; [exact H1 | exact H2].
Defined.

Lemma search_keeps_keys_distinct_witness :
  exists step,
    search sampleTrack_new sampleRequest 1 (storeOf [up 1; up 3]) t0 "lofi" None
      (start "bot" client0) = Some step
    /\ cacheKeys (client step) = ["ytsearch:lofi"]
    /\ NoDup (cacheKeys (client step)).
Proof.
  eexists. split; [vm_compute; reflexivity|]. split; [reflexivity|].
  refine (proj1 (search_keeps_keys_distinct sampleTrack_new sampleRequest 1
                   (storeOf [up 1; up 3]) t0 "lofi" None (start "bot" client0) _ _ _)).
  - vm_compute. reflexivity.
  - apply NoDup_nil_2.
Defined.

Lemma search_throw_leaves_cache_witness :
  exists step,
    search sampleTrack_new (fun _ _ => Throw RemoteError) 1 (storeOf [up 1; up 3]) t0 "lofi"
      None (start "bot" client0) = Some step
    /\ requests step = [(0%nat, "ytsearch:lofi")]
    /\ cache (client step) = cache (start "bot" client0).
Proof.
  eexists. split; [vm_compute; reflexivity|]. split; [reflexivity|].
  eapply (search_throw_leaves_cache sampleTrack_new (fun _ _ => Throw RemoteError) 1
            (storeOf [up 1; up 3]) t0 "lofi" None (start "bot" client0) _ RemoteError).
  - vm_compute. reflexivity.
  - reflexivity.
Defined.

Lemma search_before_start_witness :
  exists step,
    search sampleTrack_new sampleRequest 1 (storeOf [up 1; up 3]) t0 "lofi" None client0
    = Some step
    /\ requests step = [] /\ found step = Throw TypeError.
Proof.
  eexists. split; [vm_compute; reflexivity|].
  destruct (search_before_start sampleTrack_new sampleRequest 1 (storeOf [up 1; up 3]) t0
              "lofi" None client0 _ eq_refl eq_refl) as (H1 & _ & H3).
  split; [exact H1|]. by eapply H3.
Defined.

(** ** Players *)

(** X12. One player per guild: once [createPlayer] has returned a player
    for a guild, the client holds it under that guild id, and every later
    [createPlayer] for the guild returns it and changes nothing, whatever
    the other options; the constructor does not run again. *)
Theorem createPlayer_once
    (Player_new Player_new' : PlayerOptions.t -> Vulkava -> Completion Player.t * Vulkava)
    (options options' : PlayerOptions.t) (v v1 : Vulkava) (p : Player.t) :
  createPlayer Player_new options v = (Return p, v1) ->
  PlayerOptions.guildId options' = PlayerOptions.guildId options ->
  players v1 !! PlayerOptions.guildId options = Some p
  /\ createPlayer Player_new' options' v1 = (Return p, v1).
Proof.
  intros H Hg.
  assert (Hl : players v1 !! PlayerOptions.guildId options = Some p).
  { revert H. unfold createPlayer.
    destruct (players v !! PlayerOptions.guildId options) as [p0|] eqn:E.
    - by intros [= <- <-].
    - destruct (Player_new options v) as [[q|e] v']; [|discriminate].
      intros [= <- <-]. apply lookup_putPlayer. }
  split; [done|]. unfold createPlayer. by rewrite Hg, Hl.
Qed.

Lemma createPlayer_once_witness :
  players (putPlayer "G1" lobby client0) !! "G1" = Some lobby
  /\ createPlayer (fun _ v => (Throw TypeError, v))
       (PlayerOptions.mk "G1" (Some "C9") None None None) (putPlayer "G1" lobby client0)
     = (Return lobby, putPlayer "G1" lobby client0).
Proof.
  apply (createPlayer_once (fun _ v => (Return lobby, v)) (fun _ v => (Throw TypeError, v))
           (PlayerOptions.mk "G1" (Some "C1") None None None)
           (PlayerOptions.mk "G1" (Some "C9") None None None) client0).
  - reflexivity.
  - reflexivity.
Defined.

(** ** Decoding *)

Lemma bestNode_member (fuel : nat) (σ : NodeStore) (now : Z) (v v' : Vulkava) (a : addr) :
  bestNode fuel σ now v = Some (Return a, v') -> a ∈ nodes v.
Proof.
  revert v. induction fuel as [|fuel IH]; intros v H; simpl in H; [discriminate|].
  destruct (now <? _).
  - destruct (nodes v) as [|b l] eqn:En; [discriminate|].
    destruct (connected σ b) eqn:E; [injection H as <- <-; by left|].
    apply IH in H. cbn in H. by rewrite En in H.
  - assert (Hp := Array_sort_perm (byPenalties σ) (nodes v)).
    destruct (Array_sort _ _) as [|b l]; [discriminate|].
    destruct (connected σ b) eqn:E; simpl in H; [|discriminate].
    injection H as <- <-. rewrite <- Hp. by left.
Qed.

Section DecodeFacts.
Variable Track_new : ITrack -> Track.
Variable requestTrackInfo : addr -> string -> Completion TrackInfo.
Variable requestTracks : addr -> list string -> Completion (list ITrack).

(** X13. [decodeTrack] and [decodeTracks] send one request, to a CONNECTED
    node of the pool, or none at all when no node can be selected, in which
    case they throw what the selection throws; [decodeTracks] returns one
    track for each item the node answers, in the node's order. *)
Theorem decode_asks_a_connected_node (fuel : nat) (σ : NodeStore) (now : Z) (v : Vulkava) :
  (forall encodedTrack step,
     decodeTrack Track_new requestTrackInfo fuel σ now encodedTrack v = Some step ->
     (asked step = [] /\ exists e u, bestNode fuel σ now v = Some (Throw e, u)
                                     /\ decoded step = Throw e)
     \/ exists node, asked step = [node] /\ node ∈ nodes v /\ connected σ node = true)
  /\ (forall encodedTracks step,
        decodeTracks Track_new requestTracks fuel σ now encodedTracks v = Some step ->
        (asked step = [] /\ exists e u, bestNode fuel σ now v = Some (Throw e, u)
                                        /\ decoded step = Throw e)
        \/ exists node, asked step = [node] /\ node ∈ nodes v /\ connected σ node = true
             /\ forall l, decoded step = Return l ->
                  exists res, requestTracks node encodedTracks = Return res
                              /\ l = map Track_new res).
Proof.
  split.
  - intros t step. unfold decodeTrack.
    destruct (bestNode fuel σ now v) as [[[node|e] u]|] eqn:Hb; [| |done].
    + intros [= <-]. right. exists node. split; [done|].
      split; [by eapply bestNode_member | by eapply bestNode_connected].
    + intros [= <-]. left. split; [done|]. by exists e, u.
  - intros ts step. unfold decodeTracks.
    destruct (bestNode fuel σ now v) as [[[node|e] u]|] eqn:Hb; [| |done].
    + intros [= <-]. right. exists node. split; [done|].
      split; [by eapply bestNode_member|]. split; [by eapply bestNode_connected|].
      cbn. intros l. destruct (requestTracks node ts) as [res|e]; [|done].
      intros [= <-]. by exists res.
    + intros [= <-]. left. split; [done|]. by exists e, u.
Qed.
End DecodeFacts.

(** ** Deliveries *)

(** X14. [handleVoiceUpdate] ignores a packet whose op is not 0, that has
    no guild id, whose guild has no player, whose type is neither
    VOICE_STATE_UPDATE nor VOICE_SERVER_UPDATE, or that reports the voice
    state of another user: nothing changes and nothing is sent. *)
Theorem irrelevant_packets_are_ignored (σ : NodeStore) (payload : Payload.t) (v : Vulkava) :
  Payload.op payload <> 0
  \/ truthy (Payload.guild_id (Payload.d payload)) = false
  \/ (exists g, Payload.guild_id (Payload.d payload) = Some g /\ players v !! g = None)
  \/ (Payload.t_ payload <> "VOICE_STATE_UPDATE" /\ Payload.t_ payload <> "VOICE_SERVER_UPDATE")
  \/ (Payload.t_ payload = "VOICE_STATE_UPDATE"
      /\ option_string_eqb (Payload.user_id (Payload.d payload)) (clientId v) = false) ->
  handleVoiceUpdate σ payload v = unchanged v.
Proof.
  unfold handleVoiceUpdate.
  intros [H | [H | [(g & Hg & H) | [[H1 H2] | [H1 H2]]]]].
  - apply Z.eqb_neq in H. by rewrite H.
  - rewrite H. by rewrite orb_true_r.
  - rewrite Hg, H. by destruct (negb _ || negb _).
  - apply String.eqb_neq in H1, H2. rewrite H1, H2.
    destruct (negb _ || negb _); [done|]. destruct (Payload.guild_id _); [|done].
    by destruct (players v !! _).
  - rewrite H1. cbn. destruct (negb _ || negb _); [done|].
    destruct (Payload.guild_id _); [|done]. destruct (players v !! _); [|done].
    unfold onVoiceStateUpdate. by rewrite H2.
Qed.

Lemma irrelevant_packets_are_ignored_witness :
  handleVoiceUpdate (storeOf [up 1; up 3])
    (voiceStateUpdate "G1" (Some "someone") (Some "S7") (Some "C7")) client1
  = unchanged client1.
Proof.
  apply irrelevant_packets_are_ignored. right. right. right. right. split; reflexivity.
Defined.

Lemma decode_asks_a_connected_node_witness :
  exists step,
    decodeTracks sampleTrack_new (fun _ (l : list string) => Return (map (fun t => mkITrack t "one" 100) l))
      1 (storeOf [up 5; up 1]) t0 ["QAAA"; "QAAB"] client0 = Some step
    /\ asked step = [1%nat]
    /\ decoded step = Return [sampleTrack_new (mkITrack "QAAA" "one" 100);
                              sampleTrack_new (mkITrack "QAAB" "one" 100)].
Proof.
  eexists. split; [vm_compute; reflexivity|].
  destruct (proj2 (decode_asks_a_connected_node sampleTrack_new
                     (fun _ _ => Throw RemoteError)
                     (fun _ (l : list string) => Return (map (fun t => mkITrack t "one" 100) l))
                     1 (storeOf [up 5; up 1]) t0 client0) ["QAAA"; "QAAB"] _ eq_refl)
    as [[H _] | (node & H & _)].
  - discriminate H.
  - split; reflexivity.
Defined.

Lemma sendVoiceUpdate_keeps_guild (σ : NodeStore) (p : Player.t) :
  Player.guildId (sendVoiceUpdate σ p).1.2 = Player.guildId p.
Proof.
  unfold sendVoiceUpdate. destruct (facts p); [|done].
  destruct (Player.node p) as [a|]; [|done]. by destruct (connected σ a).
Qed.

Lemma moveNode_keeps_guild (σ : NodeStore) (p : Player.t) (n' : addr) :
  Player.guildId (moveNode σ p n').1.2 = Player.guildId p
  /\ Player.node (moveNode σ p n').1.2 = Some n'.
Proof.
  unfold moveNode. rewrite sendVoiceUpdate_keeps_guild.
  by destruct (sendVoiceUpdate_keeps_node σ (Player.set_node (Some n') p)) as (-> & _).
Qed.

(** What a delivery does to the client: nothing, or it writes to the player
    of the packet's guild, whose node it leaves or moves to the migration
    target. *)
Lemma deliver_cases (σ : NodeStore) (payload : Payload.t) (v : Vulkava) :
  after (handleVoiceUpdate σ payload v) = v
  \/ exists g p q,
       Payload.guild_id (Payload.d payload) = Some g /\ players v !! g = Some p
       /\ after (handleVoiceUpdate σ payload v) = putPlayer g q v
       /\ Player.guildId q = Player.guildId p
       /\ (Player.node q = Player.node p
           \/ exists e n n', Payload.t_ payload = "VOICE_SERVER_UPDATE"
                /\ Payload.endpoint (Payload.d payload) = Some e
                /\ Player.node p = Some n /\ Player.node q = Some n'
                /\ migrationTarget σ v n e = Some n').
Proof.
  unfold handleVoiceUpdate.
  destruct (negb _ || negb _); [by left|].
  destruct (Payload.guild_id _) as [g|] eqn:Hg; [|by left].
  destruct (players v !! g) as [p|] eqn:Hp; [|by left].
  destruct (String.eqb _ "VOICE_STATE_UPDATE").
  - unfold onVoiceStateUpdate. destruct (negb _); [by left|]. cbn zeta.
    set (p1 := if truthy _ then _ else _).
    assert (Hp1 : Player.guildId p1 = Player.guildId p /\ Player.node p1 = Player.node p)
      by (subst p1; by destruct (truthy _)).
    destruct Hp1 as [Hg1 Hn1].
    right. exists g, p. destruct (Player.event _).
    + exists (sendVoiceUpdate σ p1).1.2. rewrite afterCall_after.
      rewrite sendVoiceUpdate_keeps_guild.
      destruct (sendVoiceUpdate_keeps_node σ p1) as (-> & _).
      repeat split; try done. left. done.
    + exists p1. repeat split; try done. by left.
  - destruct (String.eqb _ "VOICE_SERVER_UPDATE") eqn:Et; [|by left].
    apply String.eqb_eq in Et.
    destruct (Payload.endpoint (Payload.d payload)) as [ep|] eqn:Hep;
      [|left; unfold onVoiceServerUpdate; by rewrite Hep].
    destruct (String.eqb_spec ep "") as [->|Hne];
      [left; unfold onVoiceServerUpdate; by rewrite Hep|].
    rewrite (onVoiceServerUpdate_cases _ _ _ ep) by done. cbn zeta.
    set (p1 := Player.set_event (Some (Payload.d payload)) p).
    right. exists g, p.
    destruct (Player.node p) as [n|] eqn:Hn.
    + destruct (migrationTarget σ v n ep) as [n'|] eqn:Hm.
      * exists (moveNode σ p1 n').1.2. rewrite afterCall_after.
        destruct (moveNode_keeps_guild σ p1 n') as (-> & ->).
        repeat split; try done. right. by exists ep, n, n'.
      * destruct (truthy _).
        -- exists (sendVoiceUpdate σ p1).1.2. rewrite afterCall_after.
           rewrite sendVoiceUpdate_keeps_guild.
           destruct (sendVoiceUpdate_keeps_node σ p1) as (-> & _).
           repeat split; try done. by left.
        -- exists p1. repeat split; try done. by left.
    + exists (Player.set_state ConnectionState.DISCONNECTED p1).
      repeat split; try done. left. done.
Qed.

(** X15. [handleVoiceUpdate] neither creates nor removes a session, and it
    touches neither the pool nor the cache: the guilds that have a player
    are the same afterwards, each under its own guild id, and the node
    array, [lastNodeSorting], the cache and the client id are as before. *)
Theorem deliveries_keep_sessions (σ : NodeStore) (payload : Payload.t) (v : Vulkava) :
  let o := handleVoiceUpdate σ payload v in
  dom (players (after o)) = dom (players v)
  /\ (forall g q, players (after o) !! g = Some q ->
        exists p, players v !! g = Some p /\ Player.guildId q = Player.guildId p)
  /\ nodes (after o) = nodes v /\ lastNodeSorting (after o) = lastNodeSorting v
  /\ cache (after o) = cache v /\ clientId (after o) = clientId v.
Proof.
  intros o. subst o.
  destruct (deliver_cases σ payload v) as [-> | (g & p & q & _ & Hp & -> & Hg & _)].
  - repeat split; try done. intros g q Hq. by exists q.
  - repeat split; try done.
    + cbn. apply dom_insert_lookup_L. by exists p.
    + intros g' q'. cbn. destruct (decide (g = g')) as [<-|Hne].
      * rewrite lookup_insert_eq. intros [= <-]. by exists p.
      * rewrite lookup_insert_ne by done. intros Hq. by exists q'.
Qed.

Lemma head_filter_Some {A : Type} (P : A -> bool) (l : list A) (x : A) :
  head (List.filter P l) = Some x ->
  P x = true /\ exists l1 l2, l = l1 ++ x :: l2 /\ Forall (fun b => P b = false) l1.
Proof.
  induction l as [|y l IH]; [done|]. cbn. destruct (P y) eqn:E.
  - intros [= <-]. split; [done|]. by exists [], l.
  - intros H. destruct (IH H) as (Hx & l1 & l2 & -> & Hl).
    split; [done|]. exists (y :: l1), l2. split; [done|]. by constructor.
Qed.

(** X16. A delivery moves a session to another node only on a
    server-assignment fact for the guild of the session, only away from a
    node whose region label is set and is not the one the endpoint implies
    (USA for an endpoint that starts with us, brazil or buenos-aires, EU
    otherwise), and only to the first node of the array that carries that
    label and is CONNECTED. *)
Theorem sessions_move_to_the_implied_region (σ : NodeStore) (payload : Payload.t)
    (v : Vulkava) (g : string) (p q : Player.t) :
  players v !! g = Some p ->
  players (after (handleVoiceUpdate σ payload v)) !! g = Some q ->
  Player.node q <> Player.node p ->
  Payload.t_ payload = "VOICE_SERVER_UPDATE"
  /\ Payload.guild_id (Payload.d payload) = Some g
  /\ exists ep n n',
       Payload.endpoint (Payload.d payload) = Some ep
       /\ Player.node p = Some n /\ Player.node q = Some n'
       /\ truthy (Node.region (σ n)) = true
       /\ Node.region (σ n) <> Some (if impliesUSA ep then "USA" else "EU")
       /\ Node.region (σ n') = Some (if impliesUSA ep then "USA" else "EU")
       /\ connected σ n' = true
       /\ exists l1 l2, nodes v = l1 ++ n' :: l2
            /\ Forall (fun b => Node.region (σ b) = Some (if impliesUSA ep then "USA" else "EU")
                                 -> connected σ b = false) l1.
Proof.
  intros Hp Hq Hmoved.
  destruct (deliver_cases σ payload v) as [E | (g' & p' & q' & Hg' & Hp' & E & _ & Hnode)];
    rewrite E in Hq.
  { rewrite Hp in Hq. by injection Hq as <-. }
  destruct (decide (g' = g)) as [->|Hne].
  2:{ rewrite lookup_putPlayer_ne in Hq by done. rewrite Hp in Hq. by injection Hq as <-. }
  rewrite lookup_putPlayer in Hq. injection Hq as ->.
  rewrite Hp in Hp'. injection Hp' as <-.
  destruct Hnode as [Hsame | (ep & n & n' & Ht_ & Hep & Hn & Hn' & Hm)]; [done|].
  split; [done|]. split; [done|].
  exists ep, n, n'. split; [done|]. split; [done|]. split; [done|].
  unfold migrationTarget in Hm.
  destruct (truthy (Node.region (σ n))) eqn:Ht; [|done].
  destruct (option_string_eqb (Node.region (σ n))
              (Some (if impliesUSA ep then "USA" else "EU"))) eqn:Hr; [done|].
  cbn in Hm. unfold regionNodes in Hm.
  apply head_filter_Some in Hm as (Hx & l1 & l2 & Hl & Hall).
  apply andb_true_iff in Hx as [Hx1 Hx2].
  assert (Heq : forall o s, option_string_eqb o (Some s) = true <-> o = Some s).
  { intros [x|] s; cbn; [|done]. rewrite String.eqb_eq. split; congruence. }
  split; [done|]. split; [intros H; apply Heq in H; congruence|].
  split; [by apply Heq|]. split; [done|].
  exists l1, l2. split; [done|].
  eapply Forall_impl; [exact Hall|]. cbn. intros b Hb Hreg.
  apply Heq in Hreg. rewrite Hreg in Hb. done.
Qed.

Lemma sessions_move_to_the_implied_region_witness :
  exists q ep n',
    players (after (handleVoiceUpdate twoRegions serverFact client1)) !! "G1" = Some q
    /\ Payload.t_ serverFact = "VOICE_SERVER_UPDATE"
    /\ Payload.endpoint (Payload.d serverFact) = Some ep
    /\ Player.node q = Some n'
    /\ Node.region (twoRegions n') = Some (if impliesUSA ep then "USA" else "EU").
Proof.
  eexists.
  edestruct (sessions_move_to_the_implied_region twoRegions serverFact client1 "G1")
    as (Ht & _ & ep & n & n' & H1 & _ & H3 & _ & _ & H6 & _).
  - vm_compute. reflexivity.
  - vm_compute. reflexivity.
  - vm_compute. discriminate.
  - exists ep, n'. split; [vm_compute; reflexivity|]. split; [exact Ht|].
    split; [exact H1|]. split; [exact H3 | exact H6].
Defined.

(** ** The constructor *)

Lemma includes_elem (tag : string) (l : list string) : includes tag l = true <-> tag ∈ l.
Proof.
  unfold includes. rewrite existsb_exists. split.
  - intros (x & Hx & E). apply String.eqb_eq in E as ->. by apply list_elem_of_In.
  - intros H. exists tag. split; [by apply list_elem_of_In | apply String.eqb_refl].
Qed.

(** X17. A client the constructor builds has a pool that is not empty, in
    registration order and without repetition, no session, no cache yet and
    [lastNodeSorting] at 0; a source is enabled exactly when its tag is not
    in [disabledSources], and all three are when that option is absent. *)
Theorem constructor_builds (o : VulkavaOptions) (v : Vulkava) :
  Vulkava_new o = Return v ->
  nodes v = seq 0 (length (opt_nodes o)) /\ nodes v <> [] /\ NoDup (nodes v)
  /\ players v = ∅ /\ cache v = None /\ lastNodeSorting v = 0
  /\ (appleMusic v = None <->
        exists l, opt_disabledSources o = Some l /\ "APPLE_MUSIC" ∈ l)
  /\ (deezer v = None <-> exists l, opt_disabledSources o = Some l /\ "DEEZER" ∈ l)
  /\ (spotify v = None <-> exists l, opt_disabledSources o = Some l /\ "SPOTIFY" ∈ l).
Proof.
  unfold Vulkava_new. destruct (opt_nodes o) as [|x l] eqn:E; [discriminate|].
  intros [= <-]. cbn [nodes players cache lastNodeSorting appleMusic deezer spotify].
  split; [done|]. split; [done|]. split; [apply (NoDup_seq 0 (S (length l)))|].
  split; [done|]. split; [done|]. split; [done|].
  assert (H : forall tag (A : Type) (x : A),
            match opt_disabledSources o with
            | Some l => if includes tag l then None else Some x
            | None => Some x
            end = None <-> exists l, opt_disabledSources o = Some l /\ tag ∈ l).
  { intros tag A a. destruct (opt_disabledSources o) as [d|].
    - destruct (includes tag d) eqn:Hi.
      + split; [|done]. intros _. exists d. split; [done | by apply includes_elem].
      + split; [done|]. intros (d' & [= <-] & Hin). apply includes_elem in Hin. congruence.
    - split; [done|]. by intros (d & ? & _). }
  split; [apply H|]. split; apply H.
Qed.

Lemma constructor_builds_witness :
  nodes client0 = seq 0 (length (opt_nodes twoNodes)) /\ nodes client0 <> []
  /\ NoDup (nodes client0).
Proof.
  destruct (constructor_builds twoNodes client0 eq_refl) as (H1 & H2 & H3 & _).
  split; [exact H1|]. split; [exact H2 | exact H3].
Defined.
